(** * Emergence: chaos-game cells on a hexagonal chain

    A shallow embedding of [main.py]: the adjacency rule filter
    ([chooseNext]), the jump ([jumppoint]), the attractor loop
    ([Hex.genPoints]), the renderer's palette lookup ([Hex.drawNext],
    [genGradient]) and the tile placement loop at module level.

    Python integers are [Z], Python floats are IEEE binary64 ([float]), the
    [random] module is a tape of draws threaded through every call, and an
    uncaught exception ends the computation. *)

From Stdlib Require Import String ZArith List Bool Lia Floats.
Import ListNotations.

#[local] Set Warnings "-inexact-float".
#[local] Open Scope Z_scope.

(** ** Exceptions, results, and the random tape *)

(** The exceptions the modelled code can raise.  [Exception msg] is the
    bare [raise Exception(msg)] of [chooseNext]; the others are raised by
    the interpreter or by the [random] module. *)
Inductive exn : Type :=
| Exception (msg : string)
| ValueError
| IndexError
| ZeroDivisionError
| OverflowError.

(** The error [chooseNext] raises on a bad previous choice. *)
Definition OutOfRange : exn := Exception "prevChoice out of range".

(** Pure code that may raise. *)
Inductive res (A : Type) : Type :=
| Val (a : A)
| Err (e : exn).
Arguments Val {A} a.
Arguments Err {A} e.

Definition rbind {A B} (c : res A) (k : A -> res B) : res B :=
  match c with
  | Val a => k a
  | Err e => Err e
  end.

(** One entry of the tape is the entropy of one call into [random]; the
    call maps it into its own range. *)
Definition tape := list Z.

(** What a call does on a tape: return a value and the unread draws, raise,
    or still be looping when the supplied draws are used up. *)
Inductive outcome (A : Type) : Type :=
| Ret (a : A) (rest : tape)
| Raise (e : exn)
| Starved.
Arguments Ret {A} a rest.
Arguments Raise {A} e.
Arguments Starved {A}.

Definition M (A : Type) : Type := tape -> outcome A.

Definition ret {A} (a : A) : M A := fun t => Ret a t.
Definition raise {A} (e : exn) : M A := fun _ => Raise e.
Definition bind {A B} (c : M A) (k : A -> M B) : M B :=
  fun t =>
    match c t with
    | Ret a t' => k a t'
    | Raise e => Raise e
    | Starved => Starved
    end.
Definition lift {A} (c : res A) : M A :=
  match c with
  | Val a => ret a
  | Err e => raise e
  end.

Declare Scope py_scope.
Delimit Scope py_scope with py.
Notation "x <- c ;; k" := (bind c (fun x => k))
  (at level 61, c at next level, right associativity) : py_scope.
Notation "x <-? c ;; k" := (rbind c (fun x => k))
  (at level 61, c at next level, right associativity) : py_scope.
#[local] Open Scope py_scope.

(** [while cond: s = body(s)].  Every pass of the loops modelled here calls
    [random] once, so a tape of [k] draws allows at most [k] passes: the fuel
    is one more than the draws at hand. *)
Fixpoint loop {S} (fuel : nat) (cond : S -> M bool) (body : S -> M S) (s : S)
  : M S :=
  fun t =>
    match fuel with
    | O => Starved
    | Datatypes.S fuel' =>
        match cond s t with
        | Ret true t' =>
            match body s t' with
            | Ret s' t'' => loop fuel' cond body s' t''
            | Raise e => Raise e
            | Starved => Starved
            end
        | Ret false t' => Ret s t'
        | Raise e => Raise e
        | Starved => Starved
        end
    end.

Definition while_ {S} (cond : S -> M bool) (body : S -> M S) (s : S) : M S :=
  fun t => loop (Datatypes.S (length t)) cond body s t.

(** [len(l)] *)
Definition len {A} (l : list A) : Z := Z.of_nat (length l).

(** [l[i]], negative indices counting from the end. *)
Definition getitem {A} (l : list A) (i : Z) : res A :=
  let j := if i <? 0 then i + len l else i in
  if j <? 0 then Err IndexError
  else match nth_error l (Z.to_nat j) with
       | Some a => Val a
       | None => Err IndexError
       end.

(** [random.randint(a, b)]: an integer in [a..b], [ValueError] on an empty
    range. *)
Definition randint (a b : Z) : M Z :=
  fun t =>
    if b <? a then Raise ValueError
    else match t with
         | [] => Starved
         | d :: t' => Ret (a + d mod (b - a + 1)) t'
         end.

(** [random.choice(seq)]: [IndexError] on an empty sequence. *)
Definition choice {A} (seq : list A) : M A :=
  fun t =>
    match seq with
    | [] => Raise IndexError
    | _ =>
        match t with
        | [] => Starved
        | d :: t' => lift (getitem seq (d mod len seq)) t'
        end
    end.

(** ** The adjacency rule filter *)

(** One rule of [chooseNext]:
    [if rules[k]: while pointIndex == target: pointIndex = randint(0, n-1)] *)
Definition apply_rule (rules : list bool) (k : Z) (target n pointIndex : Z)
  : M Z :=
  r <- lift (getitem rules k) ;;
  if r : bool then
    while_ (fun p => ret (p =? target)) (fun _ => randint 0 (n - 1)) pointIndex
  else ret pointIndex.

(** [chooseNext(points, prevChoice, rules, override=False)].  For the
    positive [len(points)] at which the rules are reached, Python's [%] is
    [Z.modulo]. *)
Definition chooseNext {A} (points : list A) (prevChoice : Z)
    (rules : list bool) (override : bool) : M Z :=
  let n := len points in
  if prevChoice >=? n then raise OutOfRange
  else
    pointIndex <- randint 0 (n - 1) ;;
    if negb override then
      pointIndex <- apply_rule rules 0 prevChoice n pointIndex ;;
      pointIndex <- apply_rule rules 1 (prevChoice mod n + 1) n pointIndex ;;
      pointIndex <- apply_rule rules 2 (prevChoice mod n + 2) n pointIndex ;;
      pointIndex <- apply_rule rules 3 (prevChoice mod n + 3) n pointIndex ;;
      ret pointIndex
    else ret pointIndex.

(** ** Python numbers *)

(** A number is an [int] or a [float]; the two mix in arithmetic as in
    Python, the [int] operand being converted. *)
Inductive num : Type :=
| Int (z : Z)
| Float (f : float).

(** [float(z)]: nearest binary64, [OverflowError] beyond the range. *)
Definition float_of_Z (z : Z) : res float :=
  let f := SF2Prim (binary_normalize prec emax z 0 false) in
  if is_infinity f then Err OverflowError else Val f.

Definition to_float (x : num) : res float :=
  match x with
  | Int z => float_of_Z z
  | Float f => Val f
  end.

Definition arith (fz : Z -> Z -> Z) (ff : float -> float -> float)
    (x y : num) : res num :=
  match x, y with
  | Int a, Int b => Val (Int (fz a b))
  | _, _ => a <-? to_float x ;; b <-? to_float y ;; Val (Float (ff a b))
  end.

Definition add : num -> num -> res num := arith Z.add PrimFloat.add.
Definition sub : num -> num -> res num := arith Z.sub PrimFloat.sub.
Definition mul : num -> num -> res num := arith Z.mul PrimFloat.mul.

(** [x / y], true division.  Two ints are divided as floats, which is the
    correctly rounded quotient for operands below 2^53 in magnitude. *)
Definition truediv (x y : num) : res num :=
  match x, y with
  | Int _, Int 0 => Err ZeroDivisionError
  | _, _ =>
      a <-? to_float x ;;
      b <-? to_float y ;;
      if (b =? 0)%float then Err ZeroDivisionError
      else Val (Float (a / b)%float)
  end.

(** [abs(x)] *)
Definition absn (x : num) : num :=
  match x with
  | Int z => Int (Z.abs z)
  | Float f => Float (PrimFloat.abs f)
  end.

(** A float against an int, compared exactly as Python does; [None] for
    NaN, which is unordered. *)
Definition compare_float_Z (f : float) (z : Z) : option comparison :=
  match Prim2SF f with
  | S754_nan => None
  | S754_infinity s => Some (if s then Lt else Gt)
  | S754_zero _ => Some (0 ?= z)
  | S754_finite s m e =>
      let v := if s then Z.neg m else Z.pos m in
      Some (if 0 <=? e then v * 2 ^ e ?= z else v ?= z * 2 ^ (- e))
  end.

(** [x < y] *)
Definition lt (x y : num) : bool :=
  match x, y with
  | Int a, Int b => a <? b
  | Float a, Float b => (a <? b)%float
  | Float a, Int b =>
      match compare_float_Z a b with Some Lt => true | _ => false end
  | Int a, Float b =>
      match compare_float_Z b a with Some Gt => true | _ => false end
  end.

(** [x > y] *)
Definition gt (x y : num) : bool := lt y x.

(** [int(x)]: truncation toward zero. *)
Definition int (x : num) : res Z :=
  match x with
  | Int z => Val z
  | Float f =>
      match Prim2SF f with
      | S754_nan => Err ValueError
      | S754_infinity _ => Err OverflowError
      | S754_zero _ => Val 0
      | S754_finite s m e =>
          let v := Z.shiftl (Z.pos m) e in
          Val (if s then - v else v)
      end
  end.

(** Operators over operands that are themselves being evaluated, left
    operand first. *)
Definition lift2 {A B C} (op : A -> B -> res C) (a : res A) (b : res B)
  : res C :=
  x <-? a ;; y <-? b ;; op x y.

Notation "a .+ b" := (lift2 add a b) (at level 50, left associativity)
  : py_scope.
Notation "a .- b" := (lift2 sub a b) (at level 50, left associativity)
  : py_scope.
Notation "a .* b" := (lift2 mul a b) (at level 40, left associativity)
  : py_scope.
Notation "a ./ b" := (lift2 truediv a b) (at level 40, left associativity)
  : py_scope.

(** A number standing where an evaluation is expected is that number. *)
Definition evaluated (x : num) : res num := Val x.
Coercion evaluated : num >-> res.

(** A 2-tuple of numbers. *)
Definition point : Type := num * num.

(** ** The jump *)

(** [jumppoint(point1, point2, factor, override=False)] *)
Definition jumppoint (point1 point2 : point) (factor : num) (override : bool)
  : res point :=
  let factor := if override then Int 2 else factor in
  x <-? fst point1 .+ (fst point2 .- fst point1) ./ factor ;;
  y <-? snd point1 .+ (snd point2 .- snd point1) ./ factor ;;
  Val (x, y).

(** ** Module-level constants *)

(** [math.pi] *)
Definition math_pi : float := 3.141592653589793%float.

(** [angles]: the directions of a hexagon's vertices, in radians. *)
Definition angles : list float :=
  [ math_pi / 6; math_pi / 2; 5 * math_pi / 6; 7 * math_pi / 6;
    3 * math_pi / 2; 11 * math_pi / 6 ]%float.

(** [Hex.r] and [Hex.d = 2.5*r], as the class body sets them. *)
Definition Hex_r : num := Int 100.
Definition Hex_d : res num := Float 2.5 .* Hex_r.

(** What is drawn on a cell's surface. *)
Inductive shape (colour : Type) : Type :=
| Polygon (rgb : colour) (pts : list point)
| Circle (rgb : colour) (centre : point) (radius : Z).
Arguments Polygon {colour} rgb pts.
Arguments Circle {colour} rgb centre radius.

Section Emergence.

(** The display size less the margin, as read from the operating system. *)
Variables width height : Z.

(** [math.cos] and [math.sin] of the platform's C library, on the finite
    arguments the program passes them. *)
Variables cos sin : float -> float.

(** The [colour] package: its [Color] objects, the constructor by name,
    the channel attributes, and [a.range_to(b, steps)] as a list. *)
Variable Color : Type.
Variable Color_ : string -> Color.
Variables red green blue : Color -> float.
Variable range_to : Color -> Color -> Z -> list Color.

Definition math_cos (x : res num) : res num :=
  a <-? x ;; f <-? to_float a ;; Val (Float (cos f)).
Definition math_sin (x : res num) : res num :=
  a <-? x ;; f <-? to_float a ;; Val (Float (sin f)).

(** [colors] *)
Definition colors : list Color :=
  [ Color_ "red"; Color_ "orange"; Color_ "yellow"; Color_ "green";
    Color_ "blue"; Color_ "purple" ].

(** [coords], with its initial anchor. *)
Definition coords0 : res (list point) :=
  x <-? Int width ./ Int 2 .- Int 400 ;;
  y <-? Int height ./ Int 2 .- Int 400 ;;
  Val [(x, y)].

(** An RGB triple handed to pygame. *)
Definition rgb : Type := num * num * num.

Record Hex : Type := mkHex {
  x : num;
  y : num;
  verts : list point;
  polyverts : list point;
  itr : Z;
  currentPoint : point;
  points : list point;
  pointIndex : Z;
  rules : list bool;
  factor : num;
  surface : list (shape rgb);
  override : bool;
  prevChoice : Z;
  grad : list Color
}.

(** [genGradient()] *)
Definition genGradient : M (list Color) :=
  a <- randint 0 (len colors - 1) ;;
  from <- lift (getitem colors a) ;;
  b <- randint 0 (len colors - 1) ;;
  to <- lift (getitem colors b) ;;
  ret (range_to from to 255).

(** The three assignments that end a pass of the loop in [genPoints]. *)
Definition record_point (h : Hex) (pnt : point) (newVert : Z) : Hex :=
  mkHex (x h) (y h) (verts h) (polyverts h) (itr h)
    pnt (points h ++ [pnt]) (pointIndex h) (rules h) (factor h)
    (surface h) (override h) newVert (grad h).

(** The body of [genPoints], [k] more times. *)
Fixpoint genPoints_from (k : nat) (h : Hex) : M Hex :=
  match k with
  | O => ret h
  | S k' =>
      newVert <- chooseNext (polyverts h) (prevChoice h) (rules h)
                   (override h) ;;
      v <- lift (getitem (polyverts h) newVert) ;;
      pnt <- lift (jumppoint (fst v, snd v) (currentPoint h) (factor h)
                     (override h)) ;;
      genPoints_from k' (record_point h pnt newVert)
  end.

(** [Hex.genPoints(self)]: [for i in range(self.itr)]. *)
Definition genPoints (h : Hex) : M Hex :=
  genPoints_from (Z.to_nat (itr h)) h.

(** The vertices of a regular polygon, [for i in range(n)] from [i]:
    [(r + 50 + radius*cos(step*i), r + 50 + radius*sin(step*i))]. *)
Fixpoint ring (radius step : res num) (i : Z) (n : nat) : res (list point) :=
  match n with
  | O => Val []
  | S n' =>
      px <-? Hex_r .+ Int 50 .+ radius .* math_cos (step .* Int i) ;;
      py <-? Hex_r .+ Int 50 .+ radius .* math_sin (step .* Int i) ;;
      rest <-? ring radius step (i + 1) n' ;;
      Val ((px, py) :: rest)
  end.

(** [Hex.__init__(self, x, y, rules, factor)].  The surface starts empty
    and receives the two polygons. *)
Definition Hex_init (x y : num) (rules : list bool) (factor : num) : M Hex :=
  verts <- lift (ring (Hex_r .+ Int 50) (Float math_pi ./ Int 3) 0 6) ;;
  poly <- randint 3 8 ;;
  polyverts <- lift (ring Hex_r (Int 2 .* Float math_pi ./ Int poly) 0
                       (Z.to_nat poly)) ;;
  let surface :=
    [ Polygon (Int 100, Int 100, Int 100) verts;
      Polygon (Int 50, Int 50, Int 50) polyverts ] in
  let override := len polyverts =? 3 in
  grad <- genGradient ;;
  genPoints
    (mkHex x y verts polyverts 5000 (Int 0, Int 0)
       [(Int 0, Int 0); (Int 0, Int 0)] 0 rules factor surface override 0
       grad).

(** [self.grad[int(c) % 255]] *)
Definition grad_at (g : list Color) (c : num) : res Color :=
  k <-? int c ;; getitem g (k mod 255).

(** [Hex.drawNext(self, surface)], called on the cell's own surface. *)
Definition drawNext (h : Hex) : M Hex :=
  i <- lift (getitem (points h) (pointIndex h)) ;;
  index <- choice [0; 1] ;;
  c <- lift (getitem [fst i; snd i] index) ;;
  colour <- lift (
    gr <-? grad_at (grad h) c ;;
    r <-? Float (red gr) .* Int 255 ;;
    gg <-? grad_at (grad h) c ;;
    g <-? Float (green gg) .* Int 255 ;;
    gb <-? grad_at (grad h) c ;;
    b <-? Float (blue gb) .* Int 255 ;;
    Val (r, g, b)) ;;
  ret (mkHex (x h) (y h) (verts h) (polyverts h) (itr h) (currentPoint h)
         (points h) (pointIndex h + 1) (rules h) (factor h)
         (surface h ++ [Circle colour i 1]) (override h) (prevChoice h)
         (grad h)).

(** ** Tile placement *)

(** [intTuple(tup)] *)
Definition intTuple (tup : point) : res point :=
  a <-? int (fst tup) ;; b <-? int (snd tup) ;; Val (Int a, Int b).

(** [chooseNextSpot(prevCoords)] *)
Definition chooseNextSpot (prevCoords : point) : M point :=
  randAngle <- choice angles ;;
  lift (
    nx <-? fst prevCoords .+ Hex_d .* math_cos (Float randAngle) ;;
    ny <-? snd prevCoords .+ Hex_d .* math_sin (Float randAngle) ;;
    intTuple (nx, ny)).

(** [sorta = lambda l, r:
      (abs(l[0] - r[0]) < 10) and (abs(l[1] - r[1]) < 10)] *)
Definition sorta (l r : point) : res bool :=
  dx <-? fst l .- fst r ;;
  if lt (absn dx) (Int 10) then
    dy <-? snd l .- snd r ;;
    Val (lt (absn dy) (Int 10))
  else Val false.

(** [found] after [for c in coords: if sorta(c, coord): found = True; break]. *)
Fixpoint found (coords : list point) (coord : point) : res bool :=
  match coords with
  | [] => Val false
  | c :: cs =>
      b <-? sorta c coord ;;
      if b : bool then Val true else found cs coord
  end.

(** The test that ends the placement early. *)
Definition off_view (coord : point) : bool :=
  gt (fst coord) (Int width) || lt (fst coord) (Int 0)
  || gt (snd coord) (Int height) || lt (snd coord) (Int 0).

(** The body of the placement loop, [k] more times.  The inner
    [while True] redraws from [coords[-1]] while [found]. *)
Fixpoint place (k : nat) (coords : list point) : M (list point) :=
  match k with
  | O => ret coords
  | S k' =>
      prev <- lift (getitem coords (-1)) ;;
      coord <- chooseNextSpot prev ;;
      coord <- while_ (fun coord => lift (found coords coord))
                 (fun _ =>
                    prev <- lift (getitem coords (-1)) ;;
                    chooseNextSpot prev)
                 coord ;;
      let coords := coords ++ [coord] in
      if off_view coord then ret coords else place k' coords
  end.

(** The placement at module level, with the bounds of its [randint] as
    parameters; the program runs [plan 7 15]. *)
Definition plan (minCount maxCount : Z) : M (list point) :=
  coords <- lift coords0 ;;
  n <- randint minCount maxCount ;;
  place (Z.to_nat n) coords.

End Emergence.

Arguments mkHex {Color}.
Arguments x {Color} h.
Arguments y {Color} h.
Arguments verts {Color} h.
Arguments polyverts {Color} h.
Arguments itr {Color} h.
Arguments currentPoint {Color} h.
Arguments points {Color} h.
Arguments pointIndex {Color} h.
Arguments rules {Color} h.
Arguments factor {Color} h.
Arguments surface {Color} h.
Arguments override {Color} h.
Arguments prevChoice {Color} h.
Arguments grad {Color} h.
Arguments record_point {Color} h pnt newVert.
Arguments genPoints_from {Color} k h.
Arguments genPoints {Color} h.
Arguments grad_at {Color} g c.
Arguments drawNext {Color} red green blue h.
Arguments Hex_init cos sin {Color} Color_ range_to x y rules factor.
Arguments genGradient {Color} Color_ range_to.
Arguments colors {Color} Color_.

(** ** Building the cells and rendering them *)

(** [numRules] *)
Definition numRules : Z := 5.

(** [factors], the possible jump factors: [3/2], [(1 + 5 ** 0.5) / 2], [2],
    [math.e], [3], [math.pi], [4], [5], the floats as CPython evaluates
    them. *)
Definition factors : list num :=
  [ Float 1.5; Float 1.618033988749895; Int 2; Float 2.718281828459045;
    Int 3; Float math_pi; Int 4; Int 5 ].

(** [random.random()]: [k / 2**53] for one of the [2**53] values of [k]. *)
Definition random_random : M num :=
  fun t =>
    match t with
    | [] => Starved
    | d :: t' => lift (Int (d mod 2 ^ 53) ./ Int (2 ^ 53)) t'
    end.

(** [randBool()] *)
Definition randBool : M bool :=
  r <- random_random ;; ret (gt r (Float 0.5)).

(** [[randBool() for i in range(n)]] *)
Fixpoint randBools (n : nat) : M (list bool) :=
  match n with
  | O => ret []
  | S n' => b <- randBool ;; bs <- randBools n' ;; ret (b :: bs)
  end.

(** [l[i] = a] on a list object, for an index [l[i]] accepts. *)
Fixpoint update {A} (l : list A) (n : nat) (a : A) : list A :=
  match l, n with
  | [], _ => []
  | _ :: l', O => a :: l'
  | b :: l', S n' => b :: update l' n' a
  end.

Definition setitem {A} (l : list A) (i : Z) (a : A) : list A :=
  update l (Z.to_nat (if i <? 0 then i + len l else i)) a.

Section Rendering.

Variables cos sin : float -> float.
Variable Color : Type.
Variable Color_ : string -> Color.
Variables red green blue : Color -> float.
Variable range_to : Color -> Color -> Z -> list Color.

(** [hexes = [Hex(j[0], j[1], [randBool() for i in range(numRules)],
               random.choice(factors)) for j in coords]] *)
Fixpoint make_hexes (coords : list point) : M (list (Hex Color)) :=
  match coords with
  | [] => ret []
  | j :: js =>
      rules <- randBools (Z.to_nat numRules) ;;
      factor <- choice factors ;;
      h <- Hex_init cos sin Color_ range_to (fst j) (snd j) rules factor ;;
      hs <- make_hexes js ;;
      ret (h :: hs)
  end.

(** The variables of the drawing loop, and the numbers under which the
    snapshots were saved. *)
Record Render : Type := mkRender {
  hexes : list (Hex Color);
  currentHex : Z;
  itrs_left : Z;
  images : Z;
  saved : list Z
}.

(** [for i in range(k): hexes[currentHex].drawNext(...)]: the cell drawn on
    is the one object in the list. *)
Fixpoint draw_dots (k : nat) (hs : list (Hex Color)) (cur : Z)
  : M (list (Hex Color)) :=
  match k with
  | O => ret hs
  | S k' =>
      h <- lift (getitem hs cur) ;;
      h' <- drawNext red green blue h ;;
      draw_dots k' (setitem hs cur h') cur
  end.

(** One pass of [while currentHex < len(hexes)] in which no quit event
    arrives.  What goes to the display only is left out. *)
Definition frame (dots_per_poly dots_per_itr : Z) (st : Render) : M Render :=
  if itrs_left st >? 0 then
    hs <- draw_dots (Z.to_nat dots_per_itr) (hexes st) (currentHex st) ;;
    ret (mkRender hs (currentHex st) (itrs_left st - dots_per_itr)
           (images st + 1) (saved st ++ [images st]))
  else
    ret (mkRender (hexes st) (currentHex st + 1) dots_per_poly (images st)
           (saved st)).

(** The loop, for at most [frames] passes. *)
Fixpoint render_loop (frames : nat) (dots_per_poly dots_per_itr : Z)
    (st : Render) : M Render :=
  fun t =>
    if currentHex st <? len (hexes st) then
      match frames with
      | O => Starved
      | S frames' =>
          bind (frame dots_per_poly dots_per_itr st)
            (render_loop frames' dots_per_poly dots_per_itr) t
      end
    else Ret st t.

(** The drawing of all cells, with [dots_per_poly] and [dots_per_itr] as
    parameters; the program runs [render 5000 1000]. *)
Definition render (dots_per_poly dots_per_itr : Z) (frames : nat)
    (hs : list (Hex Color)) : M Render :=
  render_loop frames dots_per_poly dots_per_itr
    (mkRender hs 0 dots_per_poly 1 []).

End Rendering.

Arguments make_hexes cos sin {Color} Color_ range_to coords.
Arguments mkRender {Color}.
Arguments hexes {Color} r.
Arguments currentHex {Color} r.
Arguments itrs_left {Color} r.
Arguments images {Color} r.
Arguments saved {Color} r.
Arguments draw_dots {Color} red green blue k hs cur.
Arguments frame {Color} red green blue dots_per_poly dots_per_itr st.
Arguments render_loop {Color} red green blue frames dots_per_poly
  dots_per_itr st.
Arguments render {Color} red green blue dots_per_poly dots_per_itr frames hs.

(** ** A concrete platform

    Concrete runs need the environment the program reads: here a
    1920x1080 display and the values CPython's [math.cos] and [math.sin]
    return on x86-64 Linux at every argument the program passes them. *)
Module Desktop.

Definition width : Z := 1920 - 100.
Definition height : Z := 1080 - 100.

(** Argument, cosine, sine. *)
Definition trig_table : list (float * (float * float)) :=
[
  (0x1.0c152382d7365p-1, (0x1.bb67ae8584cabp-1, 0x1.fffffffffffffp-2));
  (0x1.921fb54442d18p+0, (0x1.1a62633145c07p-54, 0x1.0000000000000p+0));
  (0x1.4f1a6c638d03fp+1, ((-0x1.bb67ae8584cabp-1), 0x1.fffffffffffffp-2));
  (0x1.d524fe24f89f1p+1, ((-0x1.bb67ae8584cacp-1), (-0x1.ffffffffffffbp-2)));
  (0x1.2d97c7f3321d2p+2, ((-0x1.a79394c9e8a0ap-53), (-0x1.0000000000000p+0)));
  (0x1.709d10d3e7eabp+2, (0x1.bb67ae8584ca8p-1, (-0x1.0000000000004p-1)));
  (0x0.0p+0, (0x1.0000000000000p+0, 0x0.0p+0));
  (0x1.0c152382d7365p+0, (0x1.0000000000001p-1, 0x1.bb67ae8584caap-1));
  (0x1.0c152382d7365p+1, ((-0x1.ffffffffffffcp-2), 0x1.bb67ae8584cabp-1));
  (0x1.921fb54442d18p+1, ((-0x1.0000000000000p+0), 0x1.1a62633145c07p-53));
  (0x1.0c152382d7365p+2, ((-0x1.0000000000004p-1), (-0x1.bb67ae8584ca8p-1)));
  (0x1.4f1a6c638d03ep+2, (0x1.ffffffffffff4p-2, (-0x1.bb67ae8584caep-1)));
  (0x1.41b2f769cf0e0p+0, (0x1.3c6ef372fe950p-2, 0x1.e6f0e134454ffp-1));
  (0x1.41b2f769cf0e0p+1, ((-0x1.9e3779b97f4a7p-1), 0x1.2cf2304755a5fp-1));
  (0x1.e28c731eb6950p+1, ((-0x1.9e3779b97f4a9p-1), (-0x1.2cf2304755a5dp-1)));
  (0x1.41b2f769cf0e0p+2, (0x1.3c6ef372fe94cp-2, (-0x1.e6f0e13445500p-1)));
  (0x1.cb91f3bbba140p-1, (0x1.3f3a0e28bedd2p-1, 0x1.904c37505de4bp-1));
  (0x1.cb91f3bbba140p+0, ((-0x1.c7b90e3024580p-3), 0x1.f329c0558e969p-1));
  (0x1.58ad76cccb8f0p+1, ((-0x1.cd4bca9cb5c70p-1), 0x1.bc4c04d71abc3p-2));
  (0x1.cb91f3bbba140p+1, ((-0x1.cd4bca9cb5c71p-1), (-0x1.bc4c04d71abbfp-2)));
  (0x1.1f3b3855544c8p+2, ((-0x1.c7b90e3024589p-3), (-0x1.f329c0558e969p-1)));
  (0x1.58ad76cccb8f0p+2, (0x1.3f3a0e28bedd0p-1, (-0x1.904c37505de4cp-1)));
  (0x1.921fb54442d18p-1, (0x1.6a09e667f3bcdp-1, 0x1.6a09e667f3bccp-1));
  (0x1.2d97c7f3321d2p+1, ((-0x1.6a09e667f3bccp-1), 0x1.6a09e667f3bcdp-1));
  (0x1.f6a7a2955385ep+1, ((-0x1.6a09e667f3bcep-1), (-0x1.6a09e667f3bccp-1)));
  (0x1.5fdbbe9bba775p+2, (0x1.6a09e667f3bcbp-1, (-0x1.6a09e667f3bcep-1)))
]%float.

Fixpoint trig (tbl : list (float * (float * float))) (a : float)
  : float * float :=
  match tbl with
  | [] => (nan, nan)
  | (k, v) :: tbl' => if (k =? a)%float then v else trig tbl' a
  end.

Definition cos (a : float) : float := fst (trig trig_table a).
Definition sin (a : float) : float := snd (trig trig_table a).

(** Colours as RGB channels in [0, 1]; [range_to] here interpolates the
    channels linearly (the package interpolates hue, saturation and
    luminance), in [steps] colours from the first to the last. *)
Definition Color : Type := float * float * float.

Definition Color_ (name : string) : Color :=
  (if String.eqb name "red" then (1, 0, 0)
   else if String.eqb name "orange" then (1, 0.6470588235294118, 0)
   else if String.eqb name "yellow" then (1, 1, 0)
   else if String.eqb name "green" then (0, 0.5019607843137255, 0)
   else if String.eqb name "blue" then (0, 0, 1)
   else (0.5019607843137255, 0, 0.5019607843137255))%float.

Definition red (c : Color) : float := fst (fst c).
Definition green (c : Color) : float := snd (fst c).
Definition blue (c : Color) : float := snd c.

Definition mix (a b : float) (i n : Z) : float :=
  match float_of_Z i, float_of_Z (n - 1) with
  | Val fi, Val fn =>
      if (fn =? 0)%float then a else (a + (b - a) * fi / fn)%float
  | _, _ => a
  end.

Definition range_to (a b : Color) (steps : Z) : list Color :=
  map (fun i : nat =>
         (mix (red a) (red b) (Z.of_nat i) steps,
          mix (green a) (green b) (Z.of_nat i) steps,
          mix (blue a) (blue b) (Z.of_nat i) steps))
      (seq 0 (Z.to_nat steps)).

(** The inner polygon of three vertices, as [Hex.__init__] computes it. *)
Definition triangle : list point :=
  match ring cos sin Hex_r (Int 2 .* Float math_pi ./ Int 3) 0 3 with
  | Val vs => vs
  | Err _ => []
  end.

(** A cell as [Hex.__init__] leaves it before [genPoints], with [itr]
    iterations to run. *)
Definition cell (polyverts : list point) (itr : Z) (rules : list bool)
    (factor : num) : Hex Color :=
  mkHex (Int 0) (Int 0) [] polyverts itr (Int 0, Int 0)
    [(Int 0, Int 0); (Int 0, Int 0)] 0 rules factor []
    (len polyverts =? 3) 0
    (range_to (Color_ "red") (Color_ "blue") 255).

(** The inner polygon of four vertices, for runs under the rules. *)
Definition square : list point :=
  match ring cos sin Hex_r (Int 2 .* Float math_pi ./ Int 4) 0 4 with
  | Val vs => vs
  | Err _ => []
  end.

(** A tape of [2 * k] draws that alternate between the first two
    vertices of any polygon. *)
Fixpoint zigzag (k : nat) : tape :=
  match k with
  | O => []
  | S k' => 0 :: 1 :: zigzag k'
  end.

End Desktop.

(** ** Properties used as specifications *)

(** The value of a finished call, the unread draws forgotten. *)
Definition value {A} (o : outcome A) : option (res A) :=
  match o with
  | Ret a _ => Some (Val a)
  | Raise e => Some (Err e)
  | Starved => None
  end.

(** [math.isfinite(x)] *)
Definition isfinite (x : num) : bool :=
  match x with
  | Int _ => true
  | Float f =>
      match Prim2SF f with
      | S754_zero _ | S754_finite _ _ _ => true
      | S754_infinity _ | S754_nan => false
      end
  end.

(** One tiling step from [prev] in direction [a], cut to integers:
    [intTuple((prev[0] + Hex.d*cos(a), prev[1] + Hex.d*sin(a)))]. *)
Definition truncated_step (cos sin : float -> float) (prev : point)
    (a : float) : res point :=
  nx <-? fst prev .+ Hex_d .* math_cos cos (Float a) ;;
  ny <-? snd prev .+ Hex_d .* math_sin sin (Float a) ;;
  intTuple (nx, ny).

(** [next] is one truncated tiling step away from [prev], in one of the six
    directions. *)
Definition steps_to (cos sin : float -> float) (prev next : point) : Prop :=
  exists a, In a angles /\ truncated_step cos sin prev a = Val next.

(** The collision test of the placement loop lets the pair through: the
    two anchors are not within 10 units of each other on both axes. *)
Definition apart (c c' : point) : Prop := sorta c c' = Val false.

(** The square of the Euclidean distance between two points. *)
Definition dist2 (p q : point) : res num :=
  (fst q .- fst p) .* (fst q .- fst p) .+ (snd q .- snd p) .* (snd q .- snd p).

(** Every two neighbours of a list are related. *)
Definition consecutive {A} (R : A -> A -> Prop) (l : list A) : Prop :=
  forall i p q,
    nth_error l i = Some p -> nth_error l (S i) = Some q -> R p q.

(** A number that converts to a float, and a point of two floats. *)
Definition convertible (x : num) : Prop := exists f, to_float x = Val f.
Definition float_point (p : point) : Prop :=
  exists a b, p = (Float a, Float b).

(** A cell as [Hex.__init__] hands it to [genPoints], and as every pass of
    the loop leaves it: a non-empty polygon of float vertices, a previous
    choice below the vertex count, a current point whose coordinates
    convert to floats, and either override mode or at least four rules
    and a factor that is not zero. *)
Definition well_formed {Color} (h : Hex Color) : Prop :=
  0 < len (polyverts h) /\
  prevChoice h < len (polyverts h) /\
  Forall float_point (polyverts h) /\
  convertible (fst (currentPoint h)) /\
  convertible (snd (currentPoint h)) /\
  (override h = true \/
   ((4 <= length (rules h))%nat /\
    exists g, to_float (factor h) = Val g /\ (g =? 0)%float = false)).

(** A call that returns has read a prefix of the tape and nothing else:
    on any tape that starts with the same draws it returns the same. *)
Definition reads_prefix {A} (c : M A) : Prop :=
  forall t a rest,
    c t = Ret a rest ->
    exists used, t = used ++ rest /\ forall r, c (used ++ r) = Ret a r.

(** A call that returns has read no draw. *)
Definition reads_nothing {A} (c : M A) : Prop :=
  forall t a rest, c t = Ret a rest -> rest = t.

(** A call that returns has read at least one draw. *)
Definition draws {A} (c : M A) : Prop :=
  forall t a rest, c t = Ret a rest -> (length rest < length t)%nat.

(** Consecutive draws select different indices among [n]. *)
Fixpoint alternating (n : Z) (t : tape) : bool :=
  match t with
  | d1 :: ((d2 :: _) as t') => negb (d1 mod n =? d2 mod n) && alternating n t'
  | _ => true
  end.

(** The next draw, if any, selects an index other than [p], and the draws
    after it alternate. *)
Definition fresh (n p : Z) (t : tape) : Prop :=
  alternating n t = true /\
  match t with
  | [] => True
  | d :: _ => d mod n <> p
  end.

(** An enabled rule [k] among 0..3 excludes index [idx]: it is vertex
    [(prevChoice + k) mod n]. *)
Definition forbidden (rules : list bool) (prevChoice n idx : Z) : Prop :=
  exists k,
    0 <= k < 4 /\ getitem rules k = Val true /\ idx = (prevChoice + k) mod n.

(** Two rule sets that differ at most in [rules[4]]. *)
Definition differ_only_at_4 (r1 r2 : list bool) : Prop :=
  length r1 = length r2 /\
  forall k, k <> 4%nat -> nth_error r1 k = nth_error r2 k.

(** Every exception a call can raise satisfies [P]. *)
Definition raises_only {A} (P : exn -> Prop) (c : M A) : Prop :=
  forall t e, c t = Raise e -> P e.

(** Two states of a cell with the same setup: everything but the point
    sequence, the current point and the previous choice. *)
Definition same_setup {Color} (h h' : Hex Color) : Prop :=
  x h' = x h /\ y h' = y h /\ verts h' = verts h /\
  polyverts h' = polyverts h /\ itr h' = itr h /\
  pointIndex h' = pointIndex h /\ rules h' = rules h /\
  factor h' = factor h /\ surface h' = surface h /\
  override h' = override h /\ grad h' = grad h.

(** [q] is the jump from [p] toward one of the cell's inner vertices. *)
Definition jumps_to {Color} (h : Hex Color) (p q : point) : Prop :=
  exists v,
    In v (polyverts h) /\
    jumppoint v p (factor h) (override h) = Val q.

(** A point of two ints. *)
Definition int_point (p : point) : Prop := exists a b, p = (Int a, Int b).

(** A point whose two coordinates are finite. *)
Definition finite_point (p : point) : Prop :=
  isfinite (fst p) = true /\ isfinite (snd p) = true.

(** A cell ready to have [n] dots drawn: the cursor on its first point, a
    gradient of 255 colours, and at least [n] points, all finite. *)
Definition drawable {Color} (n : Z) (h : Hex Color) : Prop :=
  pointIndex h = 0 /\ len (grad h) = 255 /\ n <= len (points h) /\
  Forall finite_point (points h).

(** The same cell with [n] dots drawn. *)
Definition drawn {Color} (n : Z) (h h' : Hex Color) : Prop :=
  points h' = points h /\ grad h' = grad h /\
  pointIndex h' = pointIndex h + n /\
  len (surface h') = len (surface h) + n.

(** [[a, a + 1, ..., a + k - 1]] *)
Fixpoint count_from (a : Z) (k : nat) : list Z :=
  match k with
  | O => []
  | S k' => a :: count_from (a + 1) k'
  end.

(** ** Generic facts about the monad and its loops *)

Lemma bind_Ret {A B} (c : M A) (k : A -> M B) t b t' :
  bind c k t = Ret b t' ->
  exists a t1, c t = Ret a t1 /\ k a t1 = Ret b t'.
Proof.
  unfold bind. destruct (c t) as [a t1| |]; try discriminate.
  intros H. exists a, t1. split; [reflexivity | exact H].
Qed.

Lemma lift_Ret {A} (c : res A) t a t' :
  lift c t = Ret a t' -> c = Val a /\ t' = t.
Proof.
  destruct c as [a0|e]; cbn; intros H; inversion H; subst; auto.
Qed.

Lemma raises_only_bind {A B} P (c : M A) (k : A -> M B) :
  raises_only P c -> (forall a, raises_only P (k a)) ->
  raises_only P (bind c k).
Proof.
  intros Hc Hk t e. unfold bind.
  destruct (c t) as [a t1| e1 |] eqn:E; try discriminate.
  - apply Hk.
  - intros H. inversion H; subst. eapply Hc; eassumption.
Qed.

Lemma raises_only_ret {A} P (a : A) : raises_only P (ret a).
Proof. intros t e H. discriminate. Qed.

Lemma raises_only_lift {A} (P : exn -> Prop) (c : res A) :
  (forall e, c = Err e -> P e) -> raises_only P (lift c).
Proof.
  intros H t e. destruct c; cbn; intros E; inversion E; subst. auto.
Qed.

Lemma raises_only_loop {S} P (cond : S -> M bool) (body : S -> M S) :
  (forall s, raises_only P (cond s)) ->
  (forall s, raises_only P (body s)) ->
  forall fuel s, raises_only P (loop fuel cond body s).
Proof.
  intros Hc Hb fuel. induction fuel as [|fuel IH]; intros s t e; cbn.
  - discriminate.
  - destruct (cond s t) as [[|] t1| e1 |] eqn:Ec; try discriminate.
    + destruct (body s t1) as [s' t2| e2 |] eqn:Eb; try discriminate.
      * apply IH.
      * intros H. inversion H; subst. eapply Hb; eassumption.
    + intros H. inversion H; subst. eapply Hc; eassumption.
Qed.

Lemma raises_only_while {S} P (cond : S -> M bool) (body : S -> M S) s :
  (forall s, raises_only P (cond s)) ->
  (forall s, raises_only P (body s)) ->
  raises_only P (while_ cond body s).
Proof.
  intros Hc Hb t. unfold while_. apply raises_only_loop; assumption.
Qed.

Lemma raises_only_randint a b : raises_only (eq ValueError) (randint a b).
Proof.
  intros t e. unfold randint.
  destruct (b <? a); [intros H; inversion H; reflexivity|].
  destruct t; discriminate.
Qed.

Lemma raises_only_weaken {A} (P Q : exn -> Prop) (c : M A) :
  (forall e, P e -> Q e) -> raises_only P c -> raises_only Q c.
Proof. intros HPQ Hc t e H. apply HPQ. eapply Hc; eassumption. Qed.

(** A loop ends only when its condition fails, and keeps what its body
    keeps. *)
Lemma loop_Ret {S} (P : S -> Prop) (cond : S -> M bool) (body : S -> M S) :
  (forall s t s' t', P s -> body s t = Ret s' t' -> P s') ->
  forall fuel s t s' t',
    P s -> loop fuel cond body s t = Ret s' t' ->
    P s' /\ exists t0, cond s' t0 = Ret false t'.
Proof.
  intros Hb fuel. induction fuel as [|fuel IH]; intros s t s' t' Hs; cbn.
  - discriminate.
  - destruct (cond s t) as [[|] t1| e1 |] eqn:Ec; try discriminate.
    + destruct (body s t1) as [s1 t2| e2 |] eqn:Eb; try discriminate.
      intros H. eapply IH; [|exact H]. eapply Hb; eassumption.
    + intros H. inversion H; subst. split; [assumption|]. eauto.
Qed.

(** Fuel beyond the number of draws at hand changes nothing when every
    pass draws: the bound of [while_] never cuts a loop short. *)
Lemma loop_fuel {S} (cond : S -> M bool) (body : S -> M S) :
  (forall s, reads_nothing (cond s)) ->
  (forall s, draws (body s)) ->
  forall fuel1 fuel2 s t,
    (length t < fuel1)%nat -> (length t < fuel2)%nat ->
    loop fuel1 cond body s t = loop fuel2 cond body s t.
Proof.
  intros Hc Hb fuel1.
  induction fuel1 as [|fuel1 IH]; intros fuel2 s t H1 H2; [lia|].
  destruct fuel2 as [|fuel2]; [lia|]. cbn [loop].
  destruct (cond s t) as [[|] t1| |] eqn:Ec; try reflexivity.
  apply Hc in Ec. subst t1.
  destruct (body s t) as [s1 t2| |] eqn:Eb; try reflexivity.
  apply Hb in Eb. apply IH; lia.
Qed.

(** ** The rule filter *)

Lemma getitem_differ_only_at_4 r1 r2 k :
  differ_only_at_4 r1 r2 -> 0 <= k < 4 -> getitem r1 k = getitem r2 k.
Proof.
  intros [Hlen Hnth] Hk. unfold getitem, len.
  destruct (Z.ltb_spec k 0); [lia|].
  destruct (Z.ltb_spec k 0); [lia|].
  rewrite (Hnth (Z.to_nat k)) by lia. reflexivity.
Qed.

Lemma apply_rule_differ_only_at_4 r1 r2 k target n :
  differ_only_at_4 r1 r2 -> 0 <= k < 4 ->
  apply_rule r1 k target n = apply_rule r2 k target n.
Proof.
  intros H Hk. unfold apply_rule.
  rewrite (getitem_differ_only_at_4 r1 r2 k H Hk). reflexivity.
Qed.

Lemma raises_only_apply_rule rules k target n p :
  raises_only (fun e => e <> OutOfRange) (apply_rule rules k target n p).
Proof.
  unfold apply_rule. apply raises_only_bind.
  - apply raises_only_lift. unfold getitem. intros e.
    destruct (_ <? 0); [intros H; inversion H; discriminate|].
    destruct (nth_error _ _); intros H; inversion H; discriminate.
  - intros [|]; [|apply raises_only_ret].
    apply raises_only_while.
    + intros s. apply raises_only_ret.
    + intros s. eapply raises_only_weaken; [|apply raises_only_randint].
      intros e <-. discriminate.
Qed.

Lemma alternating_fresh n d t :
  alternating n (d :: t) = true -> fresh n (d mod n) t.
Proof.
  destruct t as [|d2 t]; cbn [alternating].
  - intros _. split; reflexivity || exact I.
  - intros H. apply andb_prop in H as [H1 H2]. split; [exact H2|].
    apply negb_true_iff, Z.eqb_neq in H1. congruence.
Qed.

Lemma randint_0 n d t :
  0 < n -> randint 0 (n - 1) (d :: t) = Ret (d mod n) t.
Proof.
  intros Hn. unfold randint.
  destruct (Z.ltb_spec (n - 1) 0); [lia|].
  replace (n - 1 - 0 + 1) with n by lia. reflexivity.
Qed.

Lemma apply_rule_alternating rules k target n p t r :
  0 < n -> getitem rules k = Val r -> 0 <= p < n -> fresh n p t ->
  (1 <= length t)%nat ->
  exists p' t',
    apply_rule rules k target n p t = Ret p' t' /\
    0 <= p' < n /\ fresh n p' t' /\ (length t <= length t' + 1)%nat.
Proof.
  intros Hn Hr Hp [Halt Hnext] Hlen.
  unfold apply_rule, bind. rewrite Hr. cbn [lift ret].
  destruct r.
  2:{ exists p, t. repeat split; auto; lia. }
  destruct t as [|d t1]; [cbn in Hlen; lia|].
  unfold while_. cbn [length loop ret].
  destruct (p =? target) eqn:Ept.
  - apply Z.eqb_eq in Ept. rewrite (randint_0 n d t1 Hn).
    assert (Hd : (d mod n =? target) = false) by (apply Z.eqb_neq; congruence).
    rewrite Hd. exists (d mod n), t1.
    split; [reflexivity|].
    split; [apply Z.mod_pos_bound; lia|].
    split; [apply alternating_fresh; assumption | cbn [length]; lia].
  - exists p, (d :: t1). split; [reflexivity|]. split; [exact Hp|].
    split; [split; assumption | cbn [length]; lia].
Qed.

Lemma chooseNext_alternating {A} (points : list A) prev rules override t :
  0 < len points -> prev < len points ->
  override = true \/ (4 <= length rules)%nat ->
  alternating (len points) t = true -> (5 <= length t)%nat ->
  exists idx t',
    chooseNext points prev rules override t = Ret idx t' /\
    0 <= idx < len points /\
    alternating (len points) t' = true /\
    (length t <= length t' + 5)%nat.
Proof.
  intros Hn Hprev Hrules Halt Hlen.
  unfold chooseNext. set (n := len points) in *.
  destruct (Z.geb_spec prev n); [lia|].
  destruct t as [|d t0]; [cbn in Hlen; lia|].
  unfold bind at 1. rewrite (randint_0 n d t0 Hn).
  assert (Hd : 0 <= d mod n < n) by (apply Z.mod_pos_bound; lia).
  pose proof (alternating_fresh n d t0 Halt) as Hf.
  cbn [length] in Hlen.
  destruct override; cbn [negb].
  { exists (d mod n), t0.
    split; [reflexivity|]. split; [exact Hd|].
    split; [apply Hf | cbn [length]; lia]. }
  destruct Hrules as [Habs|Hrules]; [discriminate|].
  assert (Hget : forall k, 0 <= k < 4 -> exists r, getitem rules k = Val r).
  { intros k Hk. unfold getitem, len.
    destruct (Z.ltb_spec k 0); [lia|]. destruct (Z.ltb_spec k 0); [lia|].
    destruct (nth_error rules (Z.to_nat k)) eqn:E; [eauto|].
    apply nth_error_None in E. lia. }
  destruct (Hget 0 ltac:(lia)) as [r0 Hr0].
  destruct (Hget 1 ltac:(lia)) as [r1 Hr1].
  destruct (Hget 2 ltac:(lia)) as [r2 Hr2].
  destruct (Hget 3 ltac:(lia)) as [r3 Hr3].
  destruct (apply_rule_alternating rules 0 prev n _ t0 r0 Hn Hr0 Hd Hf
              ltac:(lia)) as (p1 & t1 & E1 & Hp1 & Hf1 & L1).
  destruct (apply_rule_alternating rules 1 (prev mod n + 1) n _ t1 r1 Hn Hr1
              Hp1 Hf1 ltac:(lia)) as (p2 & t2 & E2 & Hp2 & Hf2 & L2).
  destruct (apply_rule_alternating rules 2 (prev mod n + 2) n _ t2 r2 Hn Hr2
              Hp2 Hf2 ltac:(lia)) as (p3 & t3 & E3 & Hp3 & Hf3 & L3).
  destruct (apply_rule_alternating rules 3 (prev mod n + 3) n _ t3 r3 Hn Hr3
              Hp3 Hf3 ltac:(lia)) as (p4 & t4 & E4 & Hp4 & Hf4 & L4).
  exists p4, t4. unfold bind. rewrite E1, E2, E3, E4. cbn [ret].
  split; [reflexivity|]. split; [exact Hp4|].
  split; [apply Hf4 | cbn [length]; lia].
Qed.

Lemma chooseNext_not_OutOfRange {A} (points : list A) prev rules override :
  prev < len points ->
  raises_only (fun e => e <> OutOfRange)
    (chooseNext points prev rules override).
Proof.
  intros Hprev. unfold chooseNext.
  destruct (Z.geb_spec prev (len points)); [lia|].
  apply raises_only_bind.
  - eapply raises_only_weaken; [|apply raises_only_randint].
    intros e <-. discriminate.
  - intros p0. destruct (negb override); [|apply raises_only_ret].
    repeat (apply raises_only_bind;
            [apply raises_only_apply_rule | intros ?]).
    apply raises_only_ret.
Qed.

(** C1 (code defect).  The claim is that with [override] false the index
    [chooseNext] returns is never [(prevChoice + k) mod vertexCount] for an
    enabled rule [k].  The code breaks it twice over.  On a triangle with
    rules 0 and 1 enabled and previous choice 0, the draws 1 then 0 make the
    loop of rule 1 replace the index 1 by the previous vertex 0, which the
    loop of rule 0 has already let through and never sees again.  With rule
    1 alone and previous choice 2, the compared value is [2 % 3 + 1 = 3],
    never drawn, so vertex [(2 + 1) mod 3 = 0] is returned. *)
Theorem chooseNext_returns_forbidden_index :
  (chooseNext Desktop.triangle 0 [true; true; false; false; false] false
     [1; 0] = Ret 0 [] /\
   forbidden [true; true; false; false; false] 0 (len Desktop.triangle) 0) /\
  (chooseNext Desktop.triangle 2 [false; true; false; false; false] false
     [0] = Ret 0 [] /\
   forbidden [false; true; false; false; false] 2 (len Desktop.triangle) 0).
Proof.
  split; (split; [vm_compute; reflexivity|]).
  - exists 0. split; [lia|]. split; reflexivity.
  - exists 1. split; [lia|]. split; reflexivity.
Qed.

(** C5 (as stated, refuted).  The previous choice [-1] lies outside
    [[0, 3)], yet [chooseNext] raises nothing and returns vertex 0. *)
Lemma chooseNext_negative_prevChoice_accepted :
  ~ (0 <= -1 < len Desktop.triangle) /\
  chooseNext Desktop.triangle (-1) [true; true; true; true; false] false [0]
    = Ret 0 [].
Proof. split; [lia | reflexivity]. Qed.

(** C5 (amended).  [chooseNext] raises [OutOfRange] exactly when
    [prevChoice >= len(points)], whatever the draws; and for a previous
    choice below a positive vertex count it returns an index of the polygon
    on every tape of at least five draws whose consecutive draws select
    different vertices (with four rules present, or in override mode). *)
Theorem chooseNext_OutOfRange_iff {A} (points : list A) prev rules override :
  (forall t,
     chooseNext points prev rules override t = Raise OutOfRange <->
     len points <= prev) /\
  (0 < len points -> prev < len points ->
   override = true \/ (4 <= length rules)%nat ->
   forall t,
     alternating (len points) t = true -> (5 <= length t)%nat ->
     exists idx t',
       chooseNext points prev rules override t = Ret idx t' /\
       0 <= idx < len points).
Proof.
  split.
  - intros t. split.
    + intros H. destruct (Z_lt_le_dec prev (len points)) as [Hlt|Hle];
        [|exact Hle].
      exfalso.
      exact (chooseNext_not_OutOfRange points prev rules override Hlt t _ H
               eq_refl).
    + intros Hle. unfold chooseNext.
      destruct (Z.geb_spec prev (len points)); [reflexivity | lia].
  - intros Hn Hprev Hrules t Halt Hlen.
    destruct (chooseNext_alternating points prev rules override t
                Hn Hprev Hrules Halt Hlen) as (idx & t' & E & Hidx & _).
    exists idx, t'. split; assumption.
Qed.

Lemma chooseNext_OutOfRange_iff_witness :
  exists idx t',
    chooseNext Desktop.triangle 2 [true; true; true; true; false] false
      [0; 1; 2; 0; 1] = Ret idx t' /\
    0 <= idx < len Desktop.triangle.
Proof.
  apply (proj2 (chooseNext_OutOfRange_iff Desktop.triangle 2
                  [true; true; true; true; false] false)).
  - reflexivity.
  - reflexivity.
  - right. cbn. lia.
  - reflexivity.
  - cbn. lia.
Defined.

(** C9.  [rules[4]] is never read: two rule sets that differ at most there
    make [chooseNext] return the same index and leave the same draws
    unread, or fail alike, for every polygon, previous choice, override
    flag and tape. *)
Theorem chooseNext_ignores_rule_4 {A} (points : list A) prev override
    (r1 r2 : list bool) (t : tape) :
  differ_only_at_4 r1 r2 ->
  chooseNext points prev r1 override t = chooseNext points prev r2 override t.
Proof.
  intros H. unfold chooseNext.
  rewrite !(apply_rule_differ_only_at_4 r1 r2 _ _ _ H) by lia.
  reflexivity.
Qed.

Lemma chooseNext_ignores_rule_4_witness :
  differ_only_at_4 [true; false; true; false; true]
    [true; false; true; false; false] /\
  chooseNext Desktop.square 1 [true; false; true; false; true] false
    [1; 3; 2] =
  chooseNext Desktop.square 1 [true; false; true; false; false] false
    [1; 3; 2].
Proof.
  assert (H : differ_only_at_4 [true; false; true; false; true]
                [true; false; true; false; false]).
  { split; [reflexivity|]. intros k Hk.
    do 5 (destruct k as [|k]; [first [reflexivity | contradiction]|]).
    reflexivity. }
  split; [exact H|].
  apply (chooseNext_ignores_rule_4 Desktop.square 1 false _ _ [1; 3; 2] H).
Defined.

(** ** The jump *)

Lemma float_of_Z_2 : float_of_Z 2 = Val 2%float.
Proof. vm_compute. reflexivity. Qed.

Lemma float_of_Z_255 : float_of_Z 255 = Val 255%float.
Proof. vm_compute. reflexivity. Qed.

Lemma jumppoint_floats a b c d g override :
  (override = true \/ (g =? 0)%float = false) ->
  jumppoint (Float a, Float b) (Float c, Float d) (Float g) override =
  let g' := if override then 2%float else g in
  Val (Float (a + (c - a) / g'), Float (b + (d - b) / g')).
Proof.
  intros H. unfold jumppoint, lift2, evaluated. cbn [fst snd rbind].
  destruct override.
  - unfold sub, add, truediv, arith. cbn [to_float rbind].
    rewrite float_of_Z_2. cbn [rbind].
    replace (2 =? 0)%float with false by (vm_compute; reflexivity).
    reflexivity.
  - destruct H as [H|H]; [discriminate|].
    unfold sub, add, truediv, arith. cbn [to_float rbind]. rewrite H.
    reflexivity.
Qed.

(** C6.  With [override] true the supplied factor is ignored and the jump
    is the one of factor 2, [point1 + (point2 - point1)/2]; with [override]
    false it is [point1 + (point2 - point1)/f].  On float coordinates these
    are the binary64 expressions written out. *)
Theorem jumppoint_override_factor_2 (point1 point2 : point) (f : num) :
  (forall f', jumppoint point1 point2 f true = jumppoint point1 point2 f' true)
  /\
  (jumppoint point1 point2 f true =
   (x <-? fst point1 .+ (fst point2 .- fst point1) ./ Int 2 ;;
    y <-? snd point1 .+ (snd point2 .- snd point1) ./ Int 2 ;;
    Val (x, y))) /\
  (jumppoint point1 point2 f false =
   (x <-? fst point1 .+ (fst point2 .- fst point1) ./ f ;;
    y <-? snd point1 .+ (snd point2 .- snd point1) ./ f ;;
    Val (x, y))) /\
  (forall a b c d g,
     point1 = (Float a, Float b) -> point2 = (Float c, Float d) ->
     f = Float g ->
     jumppoint point1 point2 f true =
     Val (Float (a + (c - a) / 2), Float (b + (d - b) / 2)) /\
     ((g =? 0)%float = false ->
      jumppoint point1 point2 f false =
      Val (Float (a + (c - a) / g), Float (b + (d - b) / g)))).
Proof.
  split; [reflexivity|]. split; [reflexivity|]. split; [reflexivity|].
  intros a b c d g -> -> ->. split.
  - apply (jumppoint_floats a b c d g true). left. reflexivity.
  - intros Hg. apply (jumppoint_floats a b c d g false). right. exact Hg.
Qed.

Lemma jumppoint_override_factor_2_witness :
  jumppoint (Float 250, Float 150) (Float 10, Float 30) (Float 3) true =
  Val (Float 130, Float 90) /\
  jumppoint (Float 250, Float 150) (Float 10, Float 30) (Float 3) false =
  Val (Float 170, Float 110).
Proof.
  destruct (jumppoint_override_factor_2 (Float 250, Float 150)
              (Float 10, Float 30) (Float 3))
    as (_ & _ & _ & H).
  destruct (H 250 150 10 30 3 eq_refl eq_refl eq_refl)%float as [H1 H2].
  split; [exact H1|]. apply H2. reflexivity.
Defined.

(** ** The palette lookup *)

Lemma int_isfinite c :
  isfinite c = true -> exists k, int c = Val k.
Proof.
  destruct c as [z|f]; cbn [isfinite int].
  - intros _. eauto.
  - destruct (Prim2SF f); try discriminate; intros _; eauto.
Qed.

Lemma getitem_in_range {A} (l : list A) i :
  0 <= i < len l -> exists a, getitem l i = Val a.
Proof.
  intros Hi. unfold getitem.
  destruct (Z.ltb_spec i 0); [lia|]. destruct (Z.ltb_spec i 0); [lia|].
  destruct (nth_error l (Z.to_nat i)) eqn:E; [eauto|].
  apply nth_error_None in E. unfold len in Hi. lia.
Qed.

Lemma grad_at_in_range {Color} (g : list Color) c :
  len g = 255 -> isfinite c = true -> exists col, grad_at g c = Val col.
Proof.
  intros Hg Hc. destruct (int_isfinite c Hc) as [k Hk].
  unfold grad_at. rewrite Hk. cbn [rbind].
  apply getitem_in_range. rewrite Hg. apply Z.mod_pos_bound. lia.
Qed.

Lemma genGradient_Ret {Color} (Color_ : string -> Color) range_to t g t' :
  genGradient Color_ range_to t = Ret g t' ->
  exists a b, g = range_to a b 255.
Proof.
  unfold genGradient. intros H.
  apply bind_Ret in H as (a & t1 & _ & H).
  apply bind_Ret in H as (from & t2 & _ & H).
  apply bind_Ret in H as (b & t3 & _ & H).
  apply bind_Ret in H as (to & t4 & _ & H).
  inversion H; subst. eauto.
Qed.

(** C10.  Provided [range_to(_, 255)] yields 255 colours, as the colour
    package does: [genGradient] returns exactly 255 colours; for every
    finite coordinate (an int, or a float that is neither infinite nor
    NaN, negative ones included) [int(c) % 255] lies in [0, 254]; so the
    lookup [grad[int(c) % 255]] of [drawNext] succeeds, and [drawNext]
    itself returns for a cell whose cursor is on a point with finite
    coordinates. *)
Theorem palette_lookup_in_bounds {Color} (Color_ : string -> Color)
    (red green blue : Color -> float)
    (range_to : Color -> Color -> Z -> list Color) :
  (forall a b, len (range_to a b 255) = 255) ->
  (forall t g t', genGradient Color_ range_to t = Ret g t' -> len g = 255) /\
  (forall c, isfinite c = true ->
     exists k, int c = Val k /\ 0 <= k mod 255 <= 254) /\
  (forall t g t' c,
     genGradient Color_ range_to t = Ret g t' -> isfinite c = true ->
     exists col, grad_at g c = Val col) /\
  (forall (h : Hex Color) i d t,
     len (grad h) = 255 ->
     getitem (points h) (pointIndex h) = Val i ->
     isfinite (fst i) = true -> isfinite (snd i) = true ->
     exists h', drawNext red green blue h (d :: t) = Ret h' t /\
                pointIndex h' = pointIndex h + 1).
Proof.
  intros Hlen.
  assert (Hgen : forall t g t',
             genGradient Color_ range_to t = Ret g t' -> len g = 255).
  { intros t g t' H. apply genGradient_Ret in H as (a & b & ->). apply Hlen. }
  split; [exact Hgen|]. split; [|split].
  - intros c Hc. destruct (int_isfinite c Hc) as [k Hk]. exists k.
    split; [exact Hk|].
    pose proof (Z.mod_pos_bound k 255 ltac:(lia)). lia.
  - intros t g t' c Hg Hc.
    apply grad_at_in_range; [eapply Hgen; eauto | exact Hc].
  - intros h i d t Hg Hi Hx Hy.
    assert (Hsel : exists c, getitem [fst i; snd i] (d mod len [0; 0]) = Val c
                            /\ isfinite c = true).
    { change (len [0; 0]) with 2.
      pose proof (Z.mod_pos_bound d 2 ltac:(lia)) as Hd.
      assert (Hcases : d mod 2 = 0 \/ d mod 2 = 1) by lia.
      destruct Hcases as [-> | ->];
        [exists (fst i) | exists (snd i)]; split;
        solve [reflexivity | assumption]. }
    unfold drawNext, bind. rewrite Hi. cbn [lift ret].
    unfold choice. cbn [lift].
    assert (Hidx : exists index,
               getitem [0; 1] (d mod len [0; 1]) = Val index /\
               index = d mod 2).
    { change (len [0; 1]) with 2.
      pose proof (Z.mod_pos_bound d 2 ltac:(lia)) as Hd.
      assert (Hcases : d mod 2 = 0 \/ d mod 2 = 1) by lia.
      destruct Hcases as [E | E]; rewrite E;
        [exists 0 | exists 1]; split; reflexivity. }
    destruct Hidx as (index & Hindex & ->). rewrite Hindex. cbn [lift ret].
    change (len [0; 0]) with 2 in Hsel.
    destruct Hsel as (c & Hc & Hfin). rewrite Hc. cbn [lift ret].
    destruct (grad_at_in_range (grad h) c Hg Hfin) as [col Hcol].
    rewrite Hcol. cbn [rbind].
    unfold lift2, evaluated, mul, arith. cbn [rbind to_float].
    rewrite float_of_Z_255. cbn [rbind lift ret].
    eexists. split; reflexivity.
Qed.

Lemma palette_lookup_in_bounds_witness :
  (forall a b, len (Desktop.range_to a b 255) = 255) /\
  (exists col,
     grad_at (Desktop.range_to (Desktop.Color_ "red") (Desktop.Color_ "blue")
                255) (Float (-3.7)) = Val col) /\
  (exists h',
     drawNext Desktop.red Desktop.green Desktop.blue
       (Desktop.cell Desktop.triangle 3 [] (Float 3)) [1] = Ret h' [] /\
     pointIndex h' = 1).
Proof.
  assert (Hlen : forall a b, len (Desktop.range_to a b 255) = 255).
  { intros a b. unfold Desktop.range_to, len.
    rewrite length_map, length_seq. reflexivity. }
  destruct (palette_lookup_in_bounds Desktop.Color_ Desktop.red Desktop.green
              Desktop.blue Desktop.range_to Hlen) as (_ & _ & Hat & Hdraw).
  split; [exact Hlen|]. split.
  - apply (Hat [0; 4] _ [] (Float (-3.7))); reflexivity.
  - apply (Hdraw (Desktop.cell Desktop.triangle 3 [] (Float 3))
             (Int 0, Int 0) 1 []); reflexivity.
Defined.

(** ** Tile placement *)

Section Placement.

Variables width height : Z.
Variables cos sin : float -> float.

Lemma choice_Ret_In {A} (seq : list A) t a t' :
  choice seq t = Ret a t' -> In a seq.
Proof.
  unfold choice. destruct seq as [|a0 seq0] eqn:Es; [discriminate|].
  rewrite <- Es. destruct t as [|d t0]; [discriminate|].
  intros H. apply lift_Ret in H as [H _]. unfold getitem in H.
  destruct (_ <? 0); [discriminate|].
  destruct (nth_error seq _) eqn:E; [|discriminate].
  inversion H; subst. eapply nth_error_In; eassumption.
Qed.

Lemma chooseNextSpot_Ret prev t c t' :
  chooseNextSpot cos sin prev t = Ret c t' -> steps_to cos sin prev c.
Proof.
  unfold chooseNextSpot. intros H.
  apply bind_Ret in H as (a & t1 & Ha & H).
  apply lift_Ret in H as [H _].
  exists a. split; [eapply choice_Ret_In; eassumption | exact H].
Qed.

Lemma found_false coords coord :
  found coords coord = Val false -> Forall (fun c => apart c coord) coords.
Proof.
  induction coords as [|c cs IH]; cbn [found]; intros H; [constructor|].
  unfold rbind in H. destruct (sorta c coord) as [[|]|e] eqn:E;
    try discriminate.
  constructor; [exact E | apply IH; exact H].
Qed.

Lemma ForallOrdPairs_snoc {A} (R : A -> A -> Prop) l x :
  ForallOrdPairs R l -> Forall (fun a => R a x) l ->
  ForallOrdPairs R (l ++ [x]).
Proof.
  induction 1 as [|a l Ha Hl IH]; cbn [app]; intros Hx.
  - constructor; constructor.
  - inversion Hx; subst. constructor.
    + apply Forall_app. split; [exact Ha|].
      constructor; [assumption | constructor].
    + apply IH. assumption.
Qed.

Lemma getitem_last {A} (l : list A) p :
  getitem l (-1) = Val p -> nth_error l (length l - 1) = Some p /\ l <> [].
Proof.
  unfold getitem, len. cbn [Z.ltb Z.compare].
  destruct (Z.ltb_spec (-1 + Z.of_nat (length l)) 0); [discriminate|].
  replace (Z.to_nat (-1 + Z.of_nat (length l))) with (length l - 1)%nat
    by lia.
  destruct (nth_error l (length l - 1)) eqn:E; [|discriminate].
  intros H'. inversion H'; subst. split; [reflexivity|].
  intros ->. cbn in H. lia.
Qed.

Lemma consecutive_snoc {A} (R : A -> A -> Prop) (l : list A) p x :
  consecutive R l -> getitem l (-1) = Val p -> R p x ->
  consecutive R (l ++ [x]).
Proof.
  intros Hl Hp Hpx i a b Ha Hb.
  apply getitem_last in Hp as [Hp Hne].
  assert (Hlen : (length l <> 0)%nat)
    by (destruct l; [congruence | discriminate]).
  destruct (Nat.lt_ge_cases (S i) (length l)) as [Hlt|Hge].
  - rewrite nth_error_app1 in Ha, Hb by lia. eapply Hl; eassumption.
  - assert (Hi : (S i < length (l ++ [x]))%nat)
      by (apply nth_error_Some; congruence).
    rewrite length_app in Hi. cbn [length] in Hi.
    assert (Ei : i = (length l - 1)%nat) by lia. subst i.
    rewrite nth_error_app1 in Ha by lia.
    rewrite nth_error_app2 in Hb by lia.
    replace (S (length l - 1) - length l)%nat with 0%nat in Hb by lia.
    cbn in Hb. inversion Hb; subst. congruence.
Qed.

(** What one pass of the placement loop appends: a truncated step from the
    last anchor that the collision test let through against every anchor. *)
Lemma place_S k coords t coords' t' :
  place width height cos sin (S k) coords t = Ret coords' t' ->
  exists prev c t1,
    getitem coords (-1) = Val prev /\ steps_to cos sin prev c /\
    Forall (fun c0 => apart c0 c) coords /\
    (if off_view width height c
     then coords' = coords ++ [c] /\ t' = t1
     else place width height cos sin k (coords ++ [c]) t1 = Ret coords' t').
Proof.
  intros H. cbn [place] in H.
  apply bind_Ret in H as (prev & t1 & Hprev & H).
  apply lift_Ret in Hprev as [Hprev _].
  apply bind_Ret in H as (c0 & t2 & Hc0 & H).
  apply chooseNextSpot_Ret in Hc0.
  apply bind_Ret in H as (c & t3 & Hloop & H).
  unfold while_ in Hloop.
  apply (loop_Ret (steps_to cos sin prev)) in Hloop as [Hc (t0 & Hfound)];
    [| |exact Hc0].
  2:{ intros s ta s' tb _ Hb.
      apply bind_Ret in Hb as (prev' & tc & Hprev' & Hb).
      apply lift_Ret in Hprev' as [Hprev' _].
      rewrite Hprev in Hprev'. inversion Hprev'; subst.
      eapply chooseNextSpot_Ret; eassumption. }
  apply lift_Ret in Hfound as [Hfound _].
  exists prev, c, t3. split; [exact Hprev|]. split; [exact Hc|].
  split; [apply found_false; exact Hfound|].
  destruct (off_view width height c); [|exact H].
  inversion H; subst. split; reflexivity.
Qed.

Lemma place_inv (I : list point -> Prop) :
  (forall coords prev coord,
     I coords -> getitem coords (-1) = Val prev ->
     steps_to cos sin prev coord ->
     Forall (fun c => apart c coord) coords -> I (coords ++ [coord])) ->
  forall k coords t coords' t',
    I coords -> place width height cos sin k coords t = Ret coords' t' ->
    I coords'.
Proof.
  intros Hstep k. induction k as [|k IH]; intros coords t coords' t' HI H.
  - inversion H; subst. exact HI.
  - apply place_S in H as (prev & c & t1 & Hprev & Hc & Hnew & H).
    pose proof (Hstep coords prev c HI Hprev Hc Hnew) as HI'.
    destruct (off_view width height c).
    + destruct H as [-> _]. exact HI'.
    + eapply IH; eassumption.
Qed.

(** Only the direction a draw selects matters to a pass of the loop. *)
Lemma chooseNextSpot_draw_mod prev d t :
  chooseNextSpot cos sin prev (d :: t) =
  chooseNextSpot cos sin prev (d mod 6 :: t).
Proof.
  unfold chooseNextSpot, bind, choice. change (len angles) with 6.
  rewrite Z.mod_mod by lia. reflexivity.
Qed.

Lemma place_draw_mod k coords d t :
  place width height cos sin (S k) coords (d :: t) =
  place width height cos sin (S k) coords (d mod 6 :: t).
Proof.
  cbn [place]. destruct (getitem coords (-1)) as [prev|e]; [|reflexivity].
  unfold bind at 1 3. cbn [lift ret].
  unfold bind at 1 3. rewrite chooseNextSpot_draw_mod. reflexivity.
Qed.

Lemma coords0_singleton seeds :
  coords0 width height = Val seeds -> exists seed, seeds = [seed].
Proof.
  unfold coords0, rbind. intros Hs.
  destruct (_ .- _) as [x0|]; [|discriminate].
  destruct (_ .- _) as [y0|]; [|discriminate].
  inversion Hs. eauto.
Qed.

Lemma plan_inv (I : list point -> Prop) :
  (forall seed, coords0 width height = Val [seed] -> I [seed]) ->
  (forall coords prev coord,
     I coords -> getitem coords (-1) = Val prev ->
     steps_to cos sin prev coord ->
     Forall (fun c => apart c coord) coords -> I (coords ++ [coord])) ->
  forall minCount maxCount t coords t',
    plan width height cos sin minCount maxCount t = Ret coords t' ->
    I coords.
Proof.
  intros Hseed Hstep minCount maxCount t coords t' H. unfold plan in H.
  apply bind_Ret in H as (seeds & t1 & Hs & H).
  apply lift_Ret in Hs as [Hs _].
  apply bind_Ret in H as (n & t2 & _ & H).
  destruct (coords0_singleton seeds Hs) as [seed ->].
  eapply place_inv; [exact Hstep | | exact H]. apply Hseed. exact Hs.
Qed.

End Placement.

(** On two integer anchors the collision test is the arithmetic one. *)
Lemma apart_ints a b a' b' :
  apart (Int a, Int b) (Int a', Int b') <->
  10 <= Z.abs (a - a') \/ 10 <= Z.abs (b - b').
Proof.
  unfold apart, sorta, lift2, evaluated, sub, arith, absn, lt.
  cbn [fst snd rbind].
  destruct (Z.ltb_spec (Z.abs (a - a')) 10);
    [destruct (Z.ltb_spec (Z.abs (b - b')) 10)|];
    split; intros H'; try discriminate; try reflexivity; try lia.
Qed.

(** C2.  In every anchor sequence the placement produces, whatever the
    bounds of the count, each pair of anchors passes the collision test,
    the earlier anchor first as the loop applies it: the two are not within
    10 units of each other on both axes.  For two integer anchors, as all
    but the seed are, that is: they are equal or differ by at least 10 on
    one axis. *)
Theorem anchors_pairwise_apart width height cos sin minCount maxCount
    (t : tape) coords t' :
  plan width height cos sin minCount maxCount t = Ret coords t' ->
  ForallOrdPairs apart coords /\
  (forall a b a' b',
     In (Int a, Int b) coords -> In (Int a', Int b') coords ->
     (a, b) = (a', b') \/ 10 <= Z.abs (a - a') \/ 10 <= Z.abs (b - b')).
Proof.
  intros H.
  assert (Hfop : ForallOrdPairs apart coords).
  { revert H.
    apply (plan_inv width height cos sin (ForallOrdPairs apart)).
    - intros seed _. constructor; constructor.
    - intros cs prev coord Hcs _ _ Hnew.
      apply ForallOrdPairs_snoc; assumption. }
  split; [exact Hfop|].
  intros a b a' b' Hin Hin'.
  destruct (ForallOrdPairs_In Hfop _ _ Hin Hin') as [E|[Hap|Hap]].
  - left. inversion E. reflexivity.
  - right. apply apart_ints. exact Hap.
  - right. apply apart_ints in Hap. lia.
Qed.

Lemma anchors_pairwise_apart_witness :
  plan Desktop.width Desktop.height Desktop.cos Desktop.sin 7 15
    [2; 0; 3; 0; 3; 0; 3; 0; 3; 0; 3; 0; 3; 0] =
  Ret [(Float 510, Float 90); (Int 726, Int 215); (Int 942, Int 340);
       (Int 1158, Int 465); (Int 1374, Int 590); (Int 1590, Int 715);
       (Int 1806, Int 840); (Int 2022, Int 965)] [] /\
  ForallOrdPairs apart
    [(Float 510, Float 90); (Int 726, Int 215); (Int 942, Int 340);
     (Int 1158, Int 465); (Int 1374, Int 590); (Int 1590, Int 715);
     (Int 1806, Int 840); (Int 2022, Int 965)].
Proof.
  assert (H : plan Desktop.width Desktop.height Desktop.cos Desktop.sin 7 15
                [2; 0; 3; 0; 3; 0; 3; 0; 3; 0; 3; 0; 3; 0] =
              Ret [(Float 510, Float 90); (Int 726, Int 215);
                   (Int 942, Int 340); (Int 1158, Int 465);
                   (Int 1374, Int 590); (Int 1590, Int 715);
                   (Int 1806, Int 840); (Int 2022, Int 965)] [])
    by (vm_compute; reflexivity).
  split; [exact H|].
  exact (proj1 (anchors_pairwise_apart _ _ _ _ _ _ _ _ _ H)).
Defined.

(** C3 (as stated, refuted).  On a 1920x1080 display the first step of
    this run goes from the seed (510.0, 90.0) in direction pi/6.  The exact
    step lands on x = 726.506..., the anchor appended is (726, 215), and the
    squared distance between the two anchors is 62281, not 250^2 = 62500;
    the same holds between the next two anchors, both integer. *)
Lemma anchors_not_cellDiameter_apart :
  plan Desktop.width Desktop.height Desktop.cos Desktop.sin 7 15
    [2; 0; 3; 0; 3; 0; 3; 0; 3; 0; 3; 0; 3; 0] =
  Ret [(Float 510, Float 90); (Int 726, Int 215); (Int 942, Int 340);
       (Int 1158, Int 465); (Int 1374, Int 590); (Int 1590, Int 715);
       (Int 1806, Int 840); (Int 2022, Int 965)] [] /\
  Float 510 .+ Hex_d .* math_cos Desktop.cos (Float (math_pi / 6)) =
    Val (Float 726.50635094610971) /\
  dist2 (Float 510, Float 90) (Int 726, Int 215) = Val (Float 62281) /\
  dist2 (Int 726, Int 215) (Int 942, Int 340) = Val (Int 62281) /\
  Hex_d .* Hex_d = Val (Float 62500).
Proof. repeat split; vm_compute; reflexivity. Qed.

(** C3 (amended).  In every anchor sequence the placement produces, each
    anchor after the first is [intTuple] of the previous anchor plus
    [Hex.d] times the cosine and sine of one of the six angles: the step,
    with both coordinates cut to integers. *)
Theorem anchors_step_truncated width height cos sin minCount maxCount
    (t : tape) coords t' :
  plan width height cos sin minCount maxCount t = Ret coords t' ->
  consecutive (steps_to cos sin) coords.
Proof.
  apply (plan_inv width height cos sin (consecutive (steps_to cos sin))).
  - intros seed _ i p q _ Hq. destruct i; discriminate.
  - intros cs prev coord Hcs Hprev Hstep _.
    eapply consecutive_snoc; eassumption.
Qed.

Lemma anchors_step_truncated_witness :
  plan Desktop.width Desktop.height Desktop.cos Desktop.sin 7 15
    [0; 1; 4; 2; 1; 0; 5; 0; 1] =
  Ret [(Float 510, Float 90); (Int 510, Int 340); (Int 293, Int 465);
       (Int 293, Int 715); (Int 509, Int 840); (Int 725, Int 714);
       (Int 941, Int 839); (Int 941, Int 1089)] [] /\
  consecutive (steps_to Desktop.cos Desktop.sin)
    [(Float 510, Float 90); (Int 510, Int 340); (Int 293, Int 465);
     (Int 293, Int 715); (Int 509, Int 840); (Int 725, Int 714);
     (Int 941, Int 839); (Int 941, Int 1089)].
Proof.
  assert (H : plan Desktop.width Desktop.height Desktop.cos Desktop.sin 7 15
                [0; 1; 4; 2; 1; 0; 5; 0; 1] =
              Ret [(Float 510, Float 90); (Int 510, Int 340);
                   (Int 293, Int 465); (Int 293, Int 715);
                   (Int 509, Int 840); (Int 725, Int 714);
                   (Int 941, Int 839); (Int 941, Int 1089)] [])
    by (vm_compute; reflexivity).
  split; [exact H|].
  exact (anchors_step_truncated _ _ _ _ _ _ _ _ _ H).
Defined.

(** C7 (as stated, refuted).  With both bounds of the count equal to 1 the
    loop runs once and appends an anchor: the result has two anchors, not
    the seed alone. *)
Lemma plan_count_1_is_not_seed_alone :
  coords0 Desktop.width Desktop.height = Val [(Float 510, Float 90)] /\
  plan Desktop.width Desktop.height Desktop.cos Desktop.sin 1 1 [0; 0] =
    Ret [(Float 510, Float 90); (Int 726, Int 215)] [] /\
  [(Float 510, Float 90); (Int 726, Int 215)] <> [(Float 510, Float 90)].
Proof.
  split; [vm_compute; reflexivity|]. split; [vm_compute; reflexivity|].
  discriminate.
Qed.

Lemma Desktop_first_step d t :
  exists c,
    place Desktop.width Desktop.height Desktop.cos Desktop.sin 1
      [(Float 510, Float 90)] (d :: t) = Ret [(Float 510, Float 90); c] t.
Proof.
  rewrite place_draw_mod.
  pose proof (Z.mod_pos_bound d 6 ltac:(lia)) as Hd.
  assert (Hk : d mod 6 = 0 \/ d mod 6 = 1 \/ d mod 6 = 2 \/ d mod 6 = 3 \/
               d mod 6 = 4 \/ d mod 6 = 5) by lia.
  destruct Hk as [E|[E|[E|[E|[E|E]]]]]; rewrite E;
    vm_compute; eexists; reflexivity.
Qed.

(** C7 (amended).  The count drawn is the number of anchors added to the
    seed.  With both bounds equal to 1 every result is the seed followed by
    exactly one anchor, a truncated step away from it; on a 1920x1080
    display that result is produced from any two draws.  The seed alone
    is what both bounds equal to 0 give. *)
Theorem plan_count_1_two_anchors width height cos sin :
  (forall t coords t',
     plan width height cos sin 1 1 t = Ret coords t' ->
     exists seed c,
       coords0 width height = Val [seed] /\ steps_to cos sin seed c /\
       coords = [seed; c]) /\
  (forall d1 d2 t,
     exists c,
       plan Desktop.width Desktop.height Desktop.cos Desktop.sin 1 1
         (d1 :: d2 :: t) = Ret [(Float 510, Float 90); c] t) /\
  (forall seeds d t,
     coords0 width height = Val seeds ->
     plan width height cos sin 0 0 (d :: t) = Ret seeds t).
Proof.
  split; [|split].
  - intros t coords t' H. unfold plan in H.
    apply bind_Ret in H as (seeds & t1 & Hs & H).
    apply lift_Ret in Hs as [Hs _].
    destruct (coords0_singleton width height seeds Hs) as [seed ->].
    apply bind_Ret in H as (n & t2 & Hn & H).
    assert (En : n = 1).
    { unfold randint in Hn. cbn [Z.ltb Z.compare Pos.compare Pos.compare_cont]
        in Hn.
      destruct t1; [discriminate|]. inversion Hn.
      replace (1 - 1 + 1) with 1 by lia. rewrite Z.mod_1_r. reflexivity. }
    subst n. change (Z.to_nat 1) with 1%nat in H.
    apply place_S in H as (prev & c & t3 & Hprev & Hc & _ & H).
    assert (prev = seed) by (cbv in Hprev; congruence). subst prev.
    exists seed, c. split; [exact Hs|]. split; [exact Hc|].
    destruct (off_view width height c).
    + destruct H as [-> _]. reflexivity.
    + inversion H; subst. reflexivity.
  - intros d1 d2 t. unfold plan, bind.
    replace (coords0 Desktop.width Desktop.height)
      with (Val [(Float 510, Float 90)]) by (vm_compute; reflexivity).
    cbn [lift ret]. unfold randint.
    cbn [Z.ltb Z.compare Pos.compare Pos.compare_cont].
    replace (1 - 1 + 1) with 1 by lia. rewrite Z.mod_1_r.
    change (Z.to_nat (1 + 0)) with 1%nat.
    apply Desktop_first_step.
  - intros seeds d t Hs. unfold plan, bind. rewrite Hs. cbn [lift ret].
    unfold randint. cbn [Z.ltb Z.compare].
    replace (0 - 0 + 1) with 1 by lia. rewrite Z.mod_1_r. reflexivity.
Qed.

Lemma plan_count_1_two_anchors_witness :
  exists seed c,
    coords0 Desktop.width Desktop.height = Val [seed] /\
    steps_to Desktop.cos Desktop.sin seed c /\
    [(Float 510, Float 90); (Int 293, Int 215)] = [seed; c].
Proof.
  apply (proj1 (plan_count_1_two_anchors Desktop.width Desktop.height
                  Desktop.cos Desktop.sin) [7; 2] _ []).
  vm_compute. reflexivity.
Defined.

(** ** The attractor loop *)

Lemma jumppoint_Val a b (p2 : point) f override :
  convertible (fst p2) -> convertible (snd p2) ->
  (override = true \/
   exists g, to_float f = Val g /\ (g =? 0)%float = false) ->
  exists x y, jumppoint (Float a, Float b) p2 f override
              = Val (Float x, Float y).
Proof.
  intros [c Hc] [d Hd] Hf. destruct p2 as [p2x p2y]. cbn [fst snd] in *.
  assert (Hsub : forall u v w, to_float u = Val w ->
                   sub u (Float v) = Val (Float (w - v))).
  { intros u v w Hu. unfold sub, arith.
    destruct u; cbn [to_float] in *; rewrite ?Hu; cbn [rbind];
      solve [reflexivity | inversion Hu; reflexivity]. }
  assert (Hdiv : forall q, exists r,
             truediv (Float q) (if override then Int 2 else f)
             = Val (Float r)).
  { intros q. destruct override.
    - exists (q / 2)%float. unfold truediv. cbn [to_float rbind].
      rewrite float_of_Z_2. cbn [rbind].
      replace (2 =? 0)%float with false by (vm_compute; reflexivity).
      reflexivity.
    - destruct Hf as [Hf|(g & Hg & Hz)]; [discriminate|].
      exists (q / g)%float. unfold truediv. cbn [to_float rbind].
      rewrite Hg. cbn [rbind]. rewrite Hz.
      destruct f as [[| |]|]; reflexivity. }
  unfold jumppoint, lift2, evaluated. cbn [fst snd rbind].
  rewrite (Hsub p2x a c Hc), (Hsub p2y b d Hd). cbn [rbind].
  destruct (Hdiv (c - a)%float) as [r1 ->].
  destruct (Hdiv (d - b)%float) as [r2 ->].
  cbn [rbind]. eexists. eexists. reflexivity.
Qed.

Lemma getitem_Forall {A} (P : A -> Prop) (l : list A) i :
  Forall P l -> 0 <= i < len l -> exists a, getitem l i = Val a /\ P a.
Proof.
  intros HP Hi. destruct (getitem_in_range l i Hi) as [a Ha].
  exists a. split; [exact Ha|].
  unfold getitem in Ha. destruct (_ <? 0); [discriminate|].
  destruct (nth_error l _) eqn:E; [|discriminate]. inversion Ha; subst.
  rewrite Forall_forall in HP. apply HP. eapply nth_error_In; eassumption.
Qed.

Lemma genPoints_from_length {Color} k : forall (h : Hex Color) t h' t',
  genPoints_from k h t = Ret h' t' ->
  length (points h') = (length (points h) + k)%nat /\ itr h' = itr h.
Proof.
  induction k as [|k IH]; intros h t h' t' H.
  - inversion H; subst. split; [lia | reflexivity].
  - cbn [genPoints_from] in H.
    apply bind_Ret in H as (newVert & t1 & _ & H).
    apply bind_Ret in H as (v & t2 & _ & H).
    apply bind_Ret in H as (pnt & t3 & _ & H).
    apply IH in H as [H1 H2]. cbn [record_point points itr] in H1, H2.
    rewrite length_app in H1. cbn [length] in H1. split; [lia | exact H2].
Qed.

Lemma genPoints_from_returns {Color} k : forall (h : Hex Color) t,
  well_formed h ->
  alternating (len (polyverts h)) t = true -> (5 * k <= length t)%nat ->
  exists h' t', genPoints_from k h t = Ret h' t'.
Proof.
  induction k as [|k IH]; intros h t Hwf Halt Hlen.
  - exists h, t. reflexivity.
  - destruct Hwf as (Hn & Hprev & Hverts & Hcx & Hcy & Hmode).
    assert (Hrules : override h = true \/ (4 <= length (rules h))%nat)
      by (destruct Hmode as [?|[? _]]; auto).
    destruct (chooseNext_alternating (polyverts h) (prevChoice h) (rules h)
                (override h) t Hn Hprev Hrules Halt ltac:(lia))
      as (idx & t1 & E1 & Hidx & Halt1 & Hlen1).
    destruct (getitem_Forall float_point (polyverts h) idx Hverts Hidx)
      as (v & Ev & (a & b & ->)).
    assert (Hfactor : override h = true \/
              exists g, to_float (factor h) = Val g /\ (g =? 0)%float = false)
      by (destruct Hmode as [?|[_ ?]]; auto).
    destruct (jumppoint_Val a b (currentPoint h) (factor h) (override h)
                Hcx Hcy Hfactor) as (px & py & Ej).
    cbn [genPoints_from]. unfold bind. rewrite E1, Ev. cbn [lift ret fst snd].
    rewrite Ej. cbn [lift ret].
    apply IH.
    + unfold well_formed. cbn [record_point polyverts prevChoice currentPoint
                                 override rules factor fst snd].
      repeat split; try assumption; try lia;
        eexists; reflexivity.
    + exact Halt1.
    + lia.
Qed.

(** C4.  For an iteration count [itr >= 0] and the two seed points that
    [Hex.__init__] sets, every cell [genPoints] returns has exactly
    [itr + 2] points; and [genPoints] does return one for a well-formed
    cell on every tape of at least [5 * itr] draws whose consecutive draws
    select different vertices. *)
Theorem genPoints_length {Color} (h : Hex Color) :
  0 <= itr h ->
  points h = [(Int 0, Int 0); (Int 0, Int 0)] ->
  (forall t h' t',
     genPoints h t = Ret h' t' -> len (points h') = itr h + 2) /\
  (well_formed h ->
   forall t,
     alternating (len (polyverts h)) t = true -> 5 * itr h <= len t ->
     exists h' t',
       genPoints h t = Ret h' t' /\ len (points h') = itr h + 2).
Proof.
  intros Hitr Hseed.
  assert (Hlen : forall t h' t',
             genPoints h t = Ret h' t' -> len (points h') = itr h + 2).
  { intros t h' t' H. unfold genPoints in H.
    apply genPoints_from_length in H as [H _].
    unfold len. rewrite H, Hseed. cbn [length]. lia. }
  split; [exact Hlen|].
  intros Hwf t Halt Ht.
  destruct (genPoints_from_returns (Z.to_nat (itr h)) h t Hwf Halt)
    as (h' & t' & E); [unfold len in Ht; lia|].
  exists h', t'. split; [exact E|]. eapply Hlen. exact E.
Qed.

Lemma Desktop_square_well_formed :
  well_formed
    (Desktop.cell Desktop.square 3 [true; true; false; false; true] (Float 3)).
Proof.
  unfold well_formed.
  cbn [Desktop.cell polyverts prevChoice currentPoint override rules factor
       fst snd].
  assert (E : Desktop.square =
              [(Float 250, Float 150); (Float 150, Float 250);
               (Float 50, Float 150);
               (Float 149.99999999999997, Float 50)])
    by (vm_compute; reflexivity).
  rewrite E.
  split; [reflexivity|]. split; [reflexivity|].
  split; [repeat constructor; eexists; eexists; reflexivity|].
  split; [exists 0%float; reflexivity|].
  split; [exists 0%float; reflexivity|].
  right. split; [cbn; lia|]. exists 3%float. split; reflexivity.
Qed.

Lemma genPoints_length_witness :
  exists h' t',
    genPoints
      (Desktop.cell Desktop.square 3 [true; true; false; false; true]
         (Float 3))
      [0; 1; 2; 3; 0; 1; 2; 3; 0; 1; 2; 3; 0; 1; 2] = Ret h' t' /\
    len (points h') = 3 + 2.
Proof.
  apply (proj2 (genPoints_length
                  (Desktop.cell Desktop.square 3
                     [true; true; false; false; true] (Float 3))
                  ltac:(cbn; lia) eq_refl)).
  - exact Desktop_square_well_formed.
  - vm_compute. reflexivity.
  - vm_compute. discriminate.
Defined.

(** ** Dependence on the draws *)

Lemma reads_prefix_ret {A} (a : A) : reads_prefix (ret a).
Proof.
  intros t a' rest H. inversion H; subst. exists []. split; reflexivity.
Qed.

Lemma reads_prefix_lift {A} (c : res A) : reads_prefix (lift c).
Proof.
  destruct c; [apply reads_prefix_ret | intros t a rest H; discriminate].
Qed.

Lemma reads_prefix_bind {A B} (c : M A) (k : A -> M B) :
  reads_prefix c -> (forall a, reads_prefix (k a)) -> reads_prefix (bind c k).
Proof.
  intros Hc Hk t b rest H.
  apply bind_Ret in H as (a & t1 & Ec & Ek).
  apply Hc in Ec as (u1 & -> & Ec).
  apply Hk in Ek as (u2 & -> & Ek).
  exists (u1 ++ u2). split; [apply app_assoc|].
  intros r. unfold bind. rewrite <- app_assoc, Ec. apply Ek.
Qed.

Lemma reads_prefix_randint a b : reads_prefix (randint a b).
Proof.
  intros t x rest. unfold randint.
  destruct (b <? a); [discriminate|].
  destruct t as [|d t0]; [discriminate|].
  intros H. inversion H; subst. exists [d]. split; reflexivity.
Qed.

Lemma draws_randint a b : draws (randint a b).
Proof.
  intros t x rest. unfold randint.
  destruct (b <? a); [discriminate|].
  destruct t as [|d t0]; [discriminate|].
  intros H. inversion H; subst. cbn [length]. lia.
Qed.

Lemma reads_prefix_loop {S} (cond : S -> M bool) (body : S -> M S) :
  (forall s, reads_prefix (cond s)) ->
  (forall s, reads_prefix (body s)) ->
  (forall s, draws (body s)) ->
  forall fuel s t s' rest,
    loop fuel cond body s t = Ret s' rest ->
    exists used,
      t = used ++ rest /\
      forall r fuel',
        (length used < fuel')%nat ->
        loop fuel' cond body s (used ++ r) = Ret s' r.
Proof.
  intros Hc Hb Hd fuel.
  induction fuel as [|fuel IH]; intros s t s' rest H; [discriminate|].
  cbn [loop] in H.
  destruct (cond s t) as [[|] t1| |] eqn:Ec; try discriminate.
  - destruct (body s t1) as [s1 t2| |] eqn:Eb; try discriminate.
    apply Hc in Ec as (u1 & -> & Ec).
    pose proof (Hd s _ _ _ Eb) as Hlt.
    apply Hb in Eb as (u2 & -> & Eb).
    apply IH in H as (u3 & -> & H).
    rewrite !length_app in Hlt.
    exists (u1 ++ u2 ++ u3). split; [rewrite <- !app_assoc; reflexivity|].
    intros r fuel' Hfuel. rewrite !length_app in Hfuel.
    destruct fuel' as [|fuel']; [lia|]. cbn [loop].
    rewrite <- !app_assoc, Ec, Eb. apply H. lia.
  - inversion H; subst.
    apply Hc in Ec as (u1 & -> & Ec).
    exists u1. split; [reflexivity|].
    intros r fuel' Hfuel. destruct fuel' as [|fuel']; [lia|]. cbn [loop].
    rewrite Ec. reflexivity.
Qed.

Lemma reads_prefix_while {S} (cond : S -> M bool) (body : S -> M S) s :
  (forall s, reads_prefix (cond s)) ->
  (forall s, reads_prefix (body s)) ->
  (forall s, draws (body s)) ->
  reads_prefix (while_ cond body s).
Proof.
  intros Hc Hb Hd t s' rest H. unfold while_ in H.
  apply (reads_prefix_loop cond body Hc Hb Hd) in H as (used & -> & H).
  exists used. split; [reflexivity|].
  intros r. unfold while_. apply H. rewrite length_app. lia.
Qed.

Lemma reads_prefix_apply_rule rules k target n p :
  reads_prefix (apply_rule rules k target n p).
Proof.
  unfold apply_rule. apply reads_prefix_bind; [apply reads_prefix_lift|].
  intros [|]; [|apply reads_prefix_ret].
  apply reads_prefix_while.
  - intros s. apply reads_prefix_ret.
  - intros s. apply reads_prefix_randint.
  - intros s. apply draws_randint.
Qed.

Lemma reads_prefix_chooseNext {A} (points : list A) prev rules override :
  reads_prefix (chooseNext points prev rules override).
Proof.
  unfold chooseNext.
  destruct (prev >=? len points); [intros t a rest H; discriminate|].
  apply reads_prefix_bind; [apply reads_prefix_randint|].
  intros p0. destruct (negb override); [|apply reads_prefix_ret].
  repeat (apply reads_prefix_bind; [apply reads_prefix_apply_rule | intros ?]).
  apply reads_prefix_ret.
Qed.

Lemma reads_prefix_genPoints_from {Color} k : forall h : Hex Color,
  reads_prefix (genPoints_from k h).
Proof.
  induction k as [|k IH]; intros h; cbn [genPoints_from].
  - apply reads_prefix_ret.
  - apply reads_prefix_bind; [apply reads_prefix_chooseNext | intros newVert].
    apply reads_prefix_bind; [apply reads_prefix_lift | intros v].
    apply reads_prefix_bind; [apply reads_prefix_lift | intros pnt].
    apply IH.
Qed.

(** C8.  The points depend on the generator only through the draws read.
    If a run of [genPoints] returns, every run from the same cell on a
    tape that begins with the draws the first run read returns the same
    cell, with the same point sequence; two runs seeded alike see the same
    draws throughout. *)
Theorem genPoints_deterministic {Color} (h : Hex Color) (t1 t2 : tape)
    h1 rest1 :
  genPoints h t1 = Ret h1 rest1 ->
  firstn (length t1 - length rest1) t2 =
  firstn (length t1 - length rest1) t1 ->
  exists rest2,
    genPoints h t2 = Ret h1 rest2 /\
    value (genPoints h t2) = value (genPoints h t1).
Proof.
  intros H Hpre.
  destruct (reads_prefix_genPoints_from (Z.to_nat (itr h)) h t1 h1 rest1 H)
    as (used & -> & Hany).
  rewrite length_app in Hpre.
  replace (length used + length rest1 - length rest1)%nat
    with (length used) in Hpre by lia.
  rewrite firstn_app, Nat.sub_diag, firstn_all in Hpre.
  cbn [firstn] in Hpre. rewrite app_nil_r in Hpre.
  exists (skipn (length used) t2).
  assert (E : genPoints h t2 = Ret h1 (skipn (length used) t2)).
  { rewrite <- (firstn_skipn (length used) t2) at 1. rewrite Hpre.
    apply Hany. }
  split; [exact E|]. rewrite E, H. reflexivity.
Qed.

Lemma genPoints_deterministic_witness :
  exists h1,
    genPoints (Desktop.cell Desktop.triangle 4 [] (Float 3)) [0; 1; 2; 0; 1]
      = Ret h1 [1] /\
    exists rest2,
      genPoints (Desktop.cell Desktop.triangle 4 [] (Float 3))
        [0; 1; 2; 0; 2; 2; 2] = Ret h1 rest2 /\
      value (genPoints (Desktop.cell Desktop.triangle 4 [] (Float 3))
               [0; 1; 2; 0; 2; 2; 2]) =
      value (genPoints (Desktop.cell Desktop.triangle 4 [] (Float 3))
               [0; 1; 2; 0; 1]).
Proof.
  eexists. split.
  - vm_compute. reflexivity.
  - apply (genPoints_deterministic
             (Desktop.cell Desktop.triangle 4 [] (Float 3))
             [0; 1; 2; 0; 1] [0; 1; 2; 0; 2; 2; 2] _ [1]).
    + vm_compute. reflexivity.
    + reflexivity.
Defined.

(** ** Cells built by the constructor *)

Lemma small_convertible j : 0 <= j < 8 -> convertible (Int j).
Proof.
  intros Hj.
  assert (H : j = 0 \/ j = 1 \/ j = 2 \/ j = 3 \/ j = 4 \/ j = 5 \/
              j = 6 \/ j = 7) by lia.
  destruct H as [->|[->|[->|[->|[->|[->|[->| ->]]]]]]];
    eexists; vm_compute; reflexivity.
Qed.

Lemma ring_float_points cos sin (r : Z) (rf s : float) n :
  float_of_Z r = Val rf ->
  forall i,
    (forall j, i <= j < i + Z.of_nat n -> convertible (Int j)) ->
    exists vs,
      ring cos sin (Int r) (Float s) i n = Val vs /\
      Forall float_point vs /\ length vs = n.
Proof.
  intros Hr. induction n as [|n IH]; intros i Hi.
  - exists []. repeat split. constructor.
  - destruct (Hi i ltac:(lia)) as [fi Hfi]. cbn [to_float] in Hfi.
    destruct (IH (i + 1) ltac:(intros j Hj; apply Hi; lia))
      as (vs & Evs & Hvs & Lvs).
    cbn [ring]. rewrite Evs.
    unfold lift2, evaluated, math_cos, math_sin, Hex_r, add, mul, arith.
    cbn [rbind to_float]. rewrite Hfi, Hr. cbn [rbind to_float].
    replace (float_of_Z 150) with (Val 150%float) by (vm_compute; reflexivity).
    cbn [rbind].
    eexists. split; [reflexivity|]. split.
    + constructor; [eexists; eexists; reflexivity | exact Hvs].
    + cbn [length]. rewrite Lvs. reflexivity.
Qed.

(** Every cell the constructor returns holds 5002 points. *)
Lemma Hex_init_length cos sin {Color} (Color_ : string -> Color) range_to
    x y rules factor t (h : Hex Color) t' :
  Hex_init cos sin Color_ range_to x y rules factor t = Ret h t' ->
  len (points h) = 5002.
Proof.
  unfold Hex_init. intros H.
  apply bind_Ret in H as (verts & t1 & _ & H).
  apply bind_Ret in H as (poly & t2 & _ & H).
  apply bind_Ret in H as (polyverts & t3 & _ & H).
  apply bind_Ret in H as (grad & t4 & _ & H).
  unfold genPoints in H. apply genPoints_from_length in H as [H _].
  cbn [points itr] in H. unfold len. rewrite H. reflexivity.
Qed.

(** The constructor returns a cell whenever the draws after the first
    three (the vertex count and the two gradient colours) alternate among
    the vertices and number at least 25000. *)
Lemma Hex_init_returns cos sin {Color} (Color_ : string -> Color) range_to
    x0 y0 rs fac d0 d1 d2 t :
  (4 <= length rs)%nat ->
  (exists g, to_float fac = Val g /\ (g =? 0)%float = false) ->
  alternating (3 + d0 mod 6) t = true -> 25000 <= len t ->
  exists (h : Hex Color) t',
    Hex_init cos sin Color_ range_to x0 y0 rs fac (d0 :: d1 :: d2 :: t)
    = Ret h t' /\ len (points h) = 5002.
Proof.
  intros Hrules Hfactor Halt Hlen.
  assert (Ex : exists h t',
             Hex_init cos sin Color_ range_to x0 y0 rs fac
               (d0 :: d1 :: d2 :: t) = Ret h t').
  2:{ destruct Ex as (h & t' & E). exists h, t'. split; [exact E|].
      eapply Hex_init_length. exact E. }
  unfold Hex_init.
  destruct (ring_float_points cos sin 150 150 (math_pi / 3) 6 eq_refl 0)
    as (verts & Everts & _ & _).
  { intros j Hj. apply small_convertible. lia. }
  replace (Hex_r .+ Int 50) with (evaluated (Int 150)) by reflexivity.
  replace (Float math_pi ./ Int 3) with (evaluated (Float (math_pi / 3)))
    by (vm_compute; reflexivity).
  unfold bind at 1. rewrite Everts. cbn [lift ret].
  unfold bind at 1. unfold randint at 1.
  cbn [Z.ltb Z.compare Pos.compare Pos.compare_cont].
  replace (8 - 3 + 1) with 6 by lia.
  pose proof (Z.mod_pos_bound d0 6 ltac:(lia)) as Hd0.
  set (poly := 3 + d0 mod 6) in *.
  assert (Hstep : exists s,
             Int 2 .* Float math_pi ./ Int poly = evaluated (Float s)).
  { assert (Hp : poly = 3 \/ poly = 4 \/ poly = 5 \/ poly = 6 \/ poly = 7 \/
                 poly = 8) by lia.
    destruct Hp as [->|[->|[->|[->|[->| ->]]]]];
      eexists; vm_compute; reflexivity. }
  destruct Hstep as [s ->].
  destruct (ring_float_points cos sin 100 100 s (Z.to_nat poly) eq_refl 0)
    as (pv & Epv & Hpv & Lpv).
  { intros j Hj. apply small_convertible. lia. }
  unfold bind at 1. change (evaluated Hex_r) with (evaluated (Int 100)).
  rewrite Epv. cbn [lift ret].
  assert (Hlenpv : len pv = poly) by (unfold len; lia).
  unfold bind at 1. unfold genGradient, bind at 1.
  change (len (colors Color_)) with 6.
  rewrite (randint_0 6 d1) by lia.
  destruct (getitem_in_range (colors Color_) (d1 mod 6)) as [from Efrom].
  { change (len (colors Color_)) with 6. apply Z.mod_pos_bound. lia. }
  unfold bind at 1. rewrite Efrom. cbn [lift ret].
  unfold bind at 1. rewrite (randint_0 6 d2) by lia.
  destruct (getitem_in_range (colors Color_) (d2 mod 6)) as [to Eto].
  { change (len (colors Color_)) with 6. apply Z.mod_pos_bound. lia. }
  unfold bind at 1. rewrite Eto. cbn [lift ret].
  unfold genPoints. cbn [itr].
  apply genPoints_from_returns.
  - unfold well_formed.
    cbn [polyverts prevChoice currentPoint override rules factor fst snd].
    rewrite Hlenpv.
    split; [lia|]. split; [lia|]. split; [exact Hpv|].
    split; [exists 0%float; reflexivity|].
    split; [exists 0%float; reflexivity|].
    right. split; assumption.
  - cbn [polyverts]. rewrite Hlenpv. exact Halt.
  - unfold len in Hlen. lia.
Qed.

(** ** Further properties of the rule filter *)

Lemma randint_range a b t x t' :
  randint a b t = Ret x t' -> a <= x <= b.
Proof.
  unfold randint. destruct (Z.ltb_spec b a); [discriminate|].
  destruct t as [|d t0]; [discriminate|]. intros E. inversion E; subst.
  pose proof (Z.mod_pos_bound d (b - a + 1) ltac:(lia)). lia.
Qed.

Lemma apply_rule_Ret rules k target n p t p' t' :
  apply_rule rules k target n p t = Ret p' t' ->
  exists r,
    getitem rules k = Val r /\
    (r = false -> p' = p) /\
    (r = true -> p' <> target) /\
    (0 <= p < n -> 0 <= p' < n).
Proof.
  unfold apply_rule. intros H.
  apply bind_Ret in H as (r & t1 & Hr & H).
  apply lift_Ret in Hr as [Hr ->]. exists r. split; [exact Hr|].
  destruct r.
  - unfold while_ in H.
    split; [discriminate|]. split.
    + intros _.
      apply (loop_Ret (fun _ => True)) in H as [_ (t0 & Hc)]; auto.
      inversion Hc. apply Z.eqb_neq. assumption.
    + intros Hp.
      apply (loop_Ret (fun q => 0 <= q < n)) in H as [Hq _]; auto.
      intros s ta s' tb _ Hb. apply randint_range in Hb. lia.
  - inversion H; subst. split; [reflexivity|]. split; [discriminate | auto].
Qed.

(** The parts of a returning call: the first draw and the four rules. *)
Lemma chooseNext_Ret {A} (points : list A) prev rules t idx t' :
  chooseNext points prev rules false t = Ret idx t' ->
  exists p0 p1 p2 p3 r0 r1 r2 r3,
    0 <= p0 < len points /\
    getitem rules 0 = Val r0 /\ getitem rules 1 = Val r1 /\
    getitem rules 2 = Val r2 /\ getitem rules 3 = Val r3 /\
    (r0 = false -> p1 = p0) /\ (r0 = true -> p1 <> prev) /\
    (r1 = false -> p2 = p1) /\
    (r1 = true -> p2 <> prev mod len points + 1) /\
    (r2 = false -> p3 = p2) /\
    (r2 = true -> p3 <> prev mod len points + 2) /\
    (r3 = false -> idx = p3) /\
    (r3 = true -> idx <> prev mod len points + 3) /\
    0 <= idx < len points.
Proof.
  unfold chooseNext. destruct (prev >=? len points); [discriminate|].
  cbn [negb]. intros H.
  apply bind_Ret in H as (p0 & t0 & H0 & H).
  apply randint_range in H0.
  apply bind_Ret in H as (p1 & t1 & H1 & H).
  apply bind_Ret in H as (p2 & t2 & H2 & H).
  apply bind_Ret in H as (p3 & t3 & H3 & H).
  apply bind_Ret in H as (p4 & t4 & H4 & H).
  inversion H; subst.
  apply apply_rule_Ret in H1 as (r0 & G0 & F0 & T0 & R0).
  apply apply_rule_Ret in H2 as (r1 & G1 & F1 & T1 & R1).
  apply apply_rule_Ret in H3 as (r2 & G2 & F2 & T2 & R2).
  apply apply_rule_Ret in H4 as (r3 & G3 & F3 & T3 & R3).
  exists p0, p1, p2, p3, r0, r1, r2, r3.
  repeat (split; [first [assumption | lia]|]).
  apply R3, R2, R1, R0. lia.
Qed.

Lemma chooseNext_Ret_bounds {A} (points : list A) prev rules override
    t idx t' :
  chooseNext points prev rules override t = Ret idx t' ->
  0 <= idx < len points.
Proof.
  destruct override.
  - unfold chooseNext. destruct (prev >=? len points); [discriminate|].
    cbn [negb]. intros H. apply bind_Ret in H as (p0 & t0 & H0 & H).
    inversion H; subst. apply randint_range in H0. lia.
  - intros H. apply chooseNext_Ret in H.
    destruct H as (p0 & p1 & p2 & p3 & r0 & r1 & r2 & r3 & H).
    apply H.
Qed.

(** X1.  Whatever the rules, the override flag and the draws, an index
    [chooseNext] returns is an index of the polygon, so that the lookup
    [points[index]] that follows it succeeds. *)
Theorem chooseNext_index_in_range {A} (points : list A) prev rules override
    t idx t' :
  chooseNext points prev rules override t = Ret idx t' ->
  0 <= idx < len points /\ exists v, getitem points idx = Val v.
Proof.
  intros H. apply chooseNext_Ret_bounds in H.
  split; [exact H|]. apply getitem_in_range. exact H.
Qed.

Lemma chooseNext_index_in_range_witness :
  chooseNext Desktop.square 3 [true; true; true; true; false] false
    [3; 0; 1; 2; 3] = Ret 0 [1; 2; 3] /\
  0 <= 0 < len Desktop.square.
Proof.
  assert (H : chooseNext Desktop.square 3 [true; true; true; true; false]
                false [3; 0; 1; 2; 3] = Ret 0 [1; 2; 3])
    by (vm_compute; reflexivity).
  split; [exact H|].
  exact (proj1 (chooseNext_index_in_range _ _ _ _ _ _ _ H)).
Defined.

(** X2.  What the sequence of loops does enforce: the value compared by
    the last enabled rule.  If rule [k] is on and the rules after it are
    off, the index returned differs from [prevChoice] for [k = 0] and from
    [prevChoice % len(points) + k] otherwise. *)
Theorem chooseNext_last_enabled_rule {A} (points : list A) prev rules
    t idx t' k :
  chooseNext points prev rules false t = Ret idx t' ->
  0 <= k < 4 ->
  getitem rules k = Val true ->
  (forall j, k < j < 4 -> getitem rules j = Val false) ->
  idx <> (if k =? 0 then prev else prev mod len points + k).
Proof.
  intros H Hk Hon Hoff. apply chooseNext_Ret in H.
  destruct H as (p0 & p1 & p2 & p3 & r0 & r1 & r2 & r3 & _ & G0 & G1 & G2 &
                 G3 & F0 & T0 & F1 & T1 & F2 & T2 & F3 & T3 & _).
  assert (Hcase : k = 0 \/ k = 1 \/ k = 2 \/ k = 3) by lia.
  destruct Hcase as [->|[->|[->| ->]]]; cbn [Z.eqb].
  - pose proof (Hoff 1 ltac:(lia)) as O1. pose proof (Hoff 2 ltac:(lia)) as O2.
    pose proof (Hoff 3 ltac:(lia)) as O3.
    assert (r0 = true) by congruence. assert (r1 = false) by congruence.
    assert (r2 = false) by congruence. assert (r3 = false) by congruence.
    rewrite F3, F2, F1 by assumption. auto.
  - pose proof (Hoff 2 ltac:(lia)) as O2. pose proof (Hoff 3 ltac:(lia)) as O3.
    assert (r1 = true) by congruence.
    assert (r2 = false) by congruence. assert (r3 = false) by congruence.
    rewrite F3, F2 by assumption. auto.
  - pose proof (Hoff 3 ltac:(lia)) as O3.
    assert (r2 = true) by congruence. assert (r3 = false) by congruence.
    rewrite F3 by assumption. auto.
  - assert (r3 = true) by congruence. auto.
Qed.

Lemma chooseNext_last_enabled_rule_witness :
  chooseNext Desktop.square 0 [true; true; false; false; true] false
    [1; 0] = Ret 0 [] /\
  0 <> 0 mod len Desktop.square + 1.
Proof.
  assert (H : chooseNext Desktop.square 0 [true; true; false; false; true]
                false [1; 0] = Ret 0 [])
    by (vm_compute; reflexivity).
  split; [exact H|].
  apply (chooseNext_last_enabled_rule Desktop.square 0
           [true; true; false; false; true] [1; 0] 0 [] 1 H).
  - lia.
  - reflexivity.
  - intros j Hj. assert (Hc : j = 2 \/ j = 3) by lia.
    destruct Hc as [-> | ->]; reflexivity.
Defined.

Lemma loop_repeats_Starved n target :
  0 < n ->
  forall t fuel,
    Forall (fun d => d mod n = target) t ->
    loop fuel (fun p => ret (p =? target)) (fun _ => randint 0 (n - 1))
      target t = Starved.
Proof.
  intros Hn t. induction t as [|d t IH]; intros fuel Hall;
    (destruct fuel as [|fuel]; [reflexivity|]); cbn [loop ret];
    rewrite Z.eqb_refl.
  - unfold randint. destruct (Z.ltb_spec (n - 1) 0); [lia | reflexivity].
  - inversion Hall; subst. rewrite (randint_0 n d t Hn). apply IH. assumption.
Qed.

(** X3.  The rejection loops have no bound: with rule 0 on, as long as
    every draw selects the previous vertex, [chooseNext] goes on drawing
    and does not return.  On a polygon of one vertex that is every run. *)
Theorem chooseNext_rejection_unbounded {A} (points : list A) prev rules t :
  0 <= prev < len points ->
  getitem rules 0 = Val true ->
  Forall (fun d => d mod len points = prev) t ->
  chooseNext points prev rules false t = Starved.
Proof.
  intros Hprev Hr Hall. unfold chooseNext.
  destruct (Z.geb_spec prev (len points)); [lia|]. cbn [negb].
  destruct t as [|d t0]; unfold bind at 1.
  - unfold randint. destruct (Z.ltb_spec (len points - 1) 0); [lia|].
    reflexivity.
  - rewrite (randint_0 (len points) d t0) by lia.
    pose proof (Forall_inv Hall) as Hd. cbn beta in Hd.
    pose proof (Forall_inv_tail Hall) as Ht0.
    unfold bind at 1. unfold apply_rule at 1. unfold bind at 1.
    rewrite Hr. cbn [lift ret]. unfold while_. rewrite Hd.
    rewrite (loop_repeats_Starved (len points) prev); auto. lia.
Qed.

Lemma chooseNext_rejection_unbounded_witness :
  chooseNext [(Float 200, Float 150)] 0 [true; false; false; false; false]
    false [5; 0; 7; 2; 9; 4] = Starved.
Proof.
  apply (chooseNext_rejection_unbounded [(Float 200, Float 150)] 0
           [true; false; false; false; false] [5; 0; 7; 2; 9; 4]).
  - cbn. lia.
  - reflexivity.
  - repeat constructor.
Defined.

(** X4.  On an empty polygon [chooseNext] always raises: the range error
    of its guard for a previous choice of 0 or more, and otherwise the
    [ValueError] of [random.randint(0, -1)]. *)
Theorem chooseNext_empty_polygon {A} prev rules override t :
  chooseNext (@nil A) prev rules override t =
  Raise (if 0 <=? prev then OutOfRange else ValueError).
Proof.
  unfold chooseNext. change (len (@nil A)) with 0.
  destruct (Z.geb_spec prev 0); destruct (Z.leb_spec 0 prev); try lia;
    reflexivity.
Qed.

(** X5.  The rules are read only without override, and then all of
    [rules[0..3]] are: a call that returns had override on or a rule list
    of at least four entries, and on an empty rule list the first draw is
    followed by an [IndexError]. *)
Theorem chooseNext_reads_four_rules {A} (points : list A) prev rules override :
  (forall t idx t',
     chooseNext points prev rules override t = Ret idx t' ->
     override = true \/ (4 <= length rules)%nat) /\
  (forall d t,
     prev < len points -> 0 < len points ->
     chooseNext points prev [] false (d :: t) = Raise IndexError /\
     chooseNext points prev [] true (d :: t) = Ret (d mod len points) t).
Proof.
  split.
  - intros t idx t' H. destruct override; [left; reflexivity | right].
    apply chooseNext_Ret in H.
    destruct H as (p0 & p1 & p2 & p3 & r0 & r1 & r2 & r3 & _ & _ & _ & _ &
                   G3 & _).
    unfold getitem in G3. cbn [Z.ltb Z.compare] in G3.
    destruct (nth_error rules (Z.to_nat 3)) eqn:E; [|discriminate].
    assert (Hlt : (Z.to_nat 3 < length rules)%nat)
      by (apply nth_error_Some; congruence).
    lia.
  - intros d t Hprev Hn. unfold chooseNext.
    destruct (Z.geb_spec prev (len points)); [lia|].
    split; unfold bind at 1; rewrite (randint_0 (len points) d t Hn);
      reflexivity.
Qed.

Lemma chooseNext_reads_four_rules_witness :
  chooseNext Desktop.triangle 0 [] false [2; 1] = Raise IndexError /\
  chooseNext Desktop.triangle 0 [] true [2; 1] = Ret 2 [1].
Proof.
  apply (proj2 (chooseNext_reads_four_rules Desktop.triangle 0 [] false)
           2 [1]); reflexivity.
Defined.

(** ** Further properties of the jump and of the attractor loop *)

Lemma truediv_Val x y q : truediv x y = Val q -> exists f, q = Float f.
Proof.
  unfold truediv, rbind.
  destruct x as [a|a], y as [[| |]|b]; cbn [to_float];
    try discriminate;
    repeat match goal with
           | |- context [float_of_Z ?z] => destruct (float_of_Z z)
           end;
    try discriminate;
    match goal with
    | |- context [(?g =? 0)%float] => destruct (g =? 0)%float
    end;
    try discriminate; intros H; inversion H; eauto.
Qed.

Lemma add_Float_r x f r : add x (Float f) = Val r -> exists g, r = Float g.
Proof.
  unfold add, arith, rbind. destruct x as [a|a]; cbn [to_float].
  - destruct (float_of_Z a); [|discriminate]. intros H. inversion H. eauto.
  - intros H. inversion H. eauto.
Qed.

Lemma jumppoint_float_point p1 p2 f override q :
  jumppoint p1 p2 f override = Val q -> float_point q.
Proof.
  unfold jumppoint, lift2, evaluated. cbn [rbind]. intros H.
  destruct (sub (fst p2) (fst p1)) as [dx|]; [|discriminate]. cbn [rbind] in H.
  destruct (truediv dx _) as [qx|] eqn:Eqx; [|discriminate].
  cbn [rbind] in H.
  destruct (add (fst p1) qx) as [rx|] eqn:Erx; [|discriminate].
  cbn [rbind] in H.
  destruct (sub (snd p2) (snd p1)) as [dy|]; [|discriminate]. cbn [rbind] in H.
  destruct (truediv dy _) as [qy|] eqn:Eqy; [|discriminate].
  cbn [rbind] in H.
  destruct (add (snd p1) qy) as [ry|] eqn:Ery; [|discriminate].
  cbn [rbind] in H. inversion H; subst.
  apply truediv_Val in Eqx as [gx ->]. apply truediv_Val in Eqy as [gy ->].
  apply add_Float_r in Erx as [hx ->]. apply add_Float_r in Ery as [hy ->].
  exists hx, hy. reflexivity.
Qed.

(** X6.  A factor of zero, integer or float of either sign, makes the
    jump raise [ZeroDivisionError], unless [override] replaces it by 2;
    and whatever a jump returns is a pair of floats, never of ints. *)
Theorem jumppoint_zero_factor a b (p2 : point) (f : num) g :
  convertible (fst p2) -> convertible (snd p2) ->
  to_float f = Val g -> (g =? 0)%float = true ->
  jumppoint (Float a, Float b) p2 f false = Err ZeroDivisionError /\
  (exists x y,
     jumppoint (Float a, Float b) p2 f true = Val (Float x, Float y)) /\
  (forall p1 p2' f' o q, jumppoint p1 p2' f' o = Val q -> float_point q).
Proof.
  intros [c Hc] [d Hd] Hf Hz. split; [|split].
  - destruct p2 as [p2x p2y]. cbn [fst snd] in *.
    unfold jumppoint, lift2, evaluated. cbn [fst snd rbind].
    assert (Hsub : sub p2x (Float a) = Val (Float (c - a))).
    { unfold sub, arith. destruct p2x; cbn [to_float] in *; rewrite Hc;
        reflexivity. }
    rewrite Hsub. cbn [rbind].
    assert (Hdiv : truediv (Float (c - a)) f = Err ZeroDivisionError).
    { unfold truediv. cbn [to_float rbind]. rewrite Hf. cbn [rbind].
      rewrite Hz. destruct f as [[| |]|]; reflexivity. }
    rewrite Hdiv. reflexivity.
  - apply jumppoint_Val; [exists c; exact Hc | exists d; exact Hd|].
    left. reflexivity.
  - intros p1 p2' f' o q. apply jumppoint_float_point.
Qed.

Lemma jumppoint_zero_factor_witness :
  jumppoint (Float 250, Float 150) (Int 0, Int 0) (Float (-0)) false
    = Err ZeroDivisionError /\
  exists x y,
    jumppoint (Float 250, Float 150) (Int 0, Int 0) (Float (-0)) true
    = Val (Float x, Float y).
Proof.
  destruct (jumppoint_zero_factor 250 150 (Int 0, Int 0) (Float (-0)) (-0))
    as (H1 & H2 & _).
  - exists 0%float. reflexivity.
  - exists 0%float. reflexivity.
  - reflexivity.
  - reflexivity.
  - split; [exact H1 | exact H2].
Defined.

Lemma chooseNext_nil {A} (points : list A) prev rules override idx t' :
  chooseNext points prev rules override [] <> Ret idx t'.
Proof.
  unfold chooseNext. destruct (prev >=? len points); [discriminate|].
  unfold bind, randint. destruct (_ <? 0); discriminate.
Qed.

Lemma chooseNext_draws {A} (points : list A) prev rules override :
  draws (chooseNext points prev rules override).
Proof.
  intros t idx rest H.
  destruct (reads_prefix_chooseNext points prev rules override t idx rest H)
    as (used & -> & Hany).
  destruct used as [|d used].
  - exfalso. specialize (Hany []). cbn [app] in Hany.
    exact (chooseNext_nil _ _ _ _ _ _ Hany).
  - rewrite length_app. cbn [length]. lia.
Qed.

Lemma chooseNext_override_one_draw {A} (points : list A) prev rules t idx t' :
  chooseNext points prev rules true t = Ret idx t' ->
  length t = S (length t').
Proof.
  unfold chooseNext. destruct (prev >=? len points); [discriminate|].
  cbn [negb]. intros H. apply bind_Ret in H as (p0 & t0 & H0 & H).
  inversion H; subst. unfold randint in H0.
  destruct (_ <? 0); [discriminate|]. destruct t; [discriminate|].
  inversion H0; subst. reflexivity.
Qed.

Lemma getitem_In {A} (l : list A) i a : getitem l i = Val a -> In a l.
Proof.
  unfold getitem. destruct (_ <? 0); [discriminate|].
  destruct (nth_error l _) eqn:E; [|discriminate].
  intros H. inversion H; subst. eapply nth_error_In; eassumption.
Qed.

Lemma last_cons {A} (a : A) : forall l d, last (a :: l) d = last l a.
Proof.
  intros l. revert a. induction l as [|b l IH]; intros a d; [reflexivity|].
  change (last (a :: b :: l) d) with (last (b :: l) d).
  rewrite (IH b d). symmetry. apply IH.
Qed.

Lemma same_setup_refl {Color} (h : Hex Color) : same_setup h h.
Proof. unfold same_setup. repeat split. Qed.

(** What [k] passes of the loop do to a cell. *)
Lemma genPoints_from_spec {Color} k : forall (h : Hex Color) t h' t',
  genPoints_from k h t = Ret h' t' ->
  exists new,
    points h' = points h ++ new /\ length new = k /\
    same_setup h h' /\
    currentPoint h' = last new (currentPoint h) /\
    (k <> 0%nat -> 0 <= prevChoice h' < len (polyverts h)) /\
    consecutive (jumps_to h) (currentPoint h :: new) /\
    Forall float_point new /\
    (length t' + k <= length t)%nat /\
    (override h = true -> length t = (length t' + k)%nat) /\
    (k = 0%nat -> h' = h).
Proof.
  induction k as [|k IH]; intros h t h' t' H.
  - inversion H; subst. exists [].
    split; [rewrite app_nil_r; reflexivity|]. split; [reflexivity|].
    split; [apply same_setup_refl|]. split; [reflexivity|].
    split; [intros Hne; congruence|].
    split; [intros i p q _ Hq; destruct i; discriminate|].
    split; [constructor|]. split; [lia|]. split; [intros _; lia|].
    reflexivity.
  - cbn [genPoints_from] in H.
    apply bind_Ret in H as (newVert & t1 & Hc & H).
    apply bind_Ret in H as (v & t2 & Hv & H).
    apply lift_Ret in Hv as [Hv ->].
    apply bind_Ret in H as (pnt & t3 & Hj & H).
    apply lift_Ret in Hj as [Hj ->].
    apply IH in H
      as (new & Hpts & Hlen & Hsame & Hcur & Hprev & Hchain & Hfl & Hd & Hdo
          & Hzero).
    cbn [record_point points currentPoint polyverts override] in *.
    pose proof (chooseNext_draws _ _ _ _ _ _ _ Hc) as Hdraw.
    pose proof (chooseNext_Ret_bounds _ _ _ _ _ _ _ Hc) as Hidx.
    assert (Hjump : jumps_to h (currentPoint h) pnt).
    { exists v. split; [eapply getitem_In; exact Hv|].
      destruct v as [vx vy]. exact Hj. }
    exists (pnt :: new).
    split; [rewrite Hpts, <- app_assoc; reflexivity|].
    split; [cbn [length]; lia|].
    split.
    { unfold same_setup in *.
      cbn [record_point x y verts polyverts itr pointIndex rules factor
           surface override grad] in Hsame.
      exact Hsame. }
    split.
    { rewrite Hcur. symmetry. apply last_cons. }
    split.
    { intros _. destruct k as [|k'].
      - rewrite (Hzero eq_refl). cbn [record_point prevChoice]. exact Hidx.
      - apply Hprev. discriminate. }
    split.
    { intros i p q Hp Hq. destruct i as [|i].
      - cbn in Hp, Hq. inversion Hp; inversion Hq; subst. exact Hjump.
      - cbn [nth_error] in Hp, Hq.
        destruct (Hchain i p q Hp Hq) as (w & Hw & Ew).
        cbn [record_point polyverts factor override] in Hw, Ew.
        exists w. split; assumption. }
    split.
    { constructor; [eapply jumppoint_float_point; exact Hj | exact Hfl]. }
    split; [lia|]. split; [|discriminate].
    intros Ho. rewrite Ho in Hc.
    apply chooseNext_override_one_draw in Hc. specialize (Hdo Ho). lia.
Qed.

(** X7.  [genPoints] only appends: the cell it returns has the points it
    had, followed by one new point per iteration, the last of them being
    its current point; its setup (position, polygons, rules, factor,
    gradient, surface, cursor) is untouched, and after at least one
    iteration its previous choice is an index of the inner polygon.  With
    an iteration count of zero or less the cell is returned as it was. *)
Theorem genPoints_appends {Color} (h : Hex Color) t h' t' :
  genPoints h t = Ret h' t' ->
  exists new,
    points h' = points h ++ new /\
    len new = Z.max 0 (itr h) /\
    same_setup h h' /\
    currentPoint h' = last new (currentPoint h) /\
    (0 < itr h -> 0 <= prevChoice h' < len (polyverts h)) /\
    (itr h <= 0 -> h' = h).
Proof.
  unfold genPoints. intros H. apply genPoints_from_spec in H.
  destruct H as (new & Hpts & Hlen & Hsame & Hcur & Hprev & _ & _ & _ & _ &
                 Hzero).
  exists new. split; [exact Hpts|]. split; [unfold len; lia|].
  split; [exact Hsame|]. split; [exact Hcur|]. split.
  - intros Hpos. apply Hprev. lia.
  - intros Hle. apply Hzero. lia.
Qed.

Lemma genPoints_appends_witness :
  exists h1 rest,
    genPoints (Desktop.cell Desktop.square 2 [true; true; false; false; true]
                 (Float 3)) [0; 1; 2; 3; 0; 1] = Ret h1 rest /\
    exists new,
      points h1 = [(Int 0, Int 0); (Int 0, Int 0)] ++ new /\
      len new = Z.max 0 2 /\
      same_setup (Desktop.cell Desktop.square 2
                    [true; true; false; false; true] (Float 3)) h1 /\
      currentPoint h1 = last new (Int 0, Int 0) /\
      (0 < 2 -> 0 <= prevChoice h1 < len Desktop.square) /\
      (2 <= 0 ->
       h1 = Desktop.cell Desktop.square 2 [true; true; false; false; true]
              (Float 3)).
Proof.
  eexists. eexists. split.
  - vm_compute. reflexivity.
  - eapply (genPoints_appends
              (Desktop.cell Desktop.square 2
                 [true; true; false; false; true] (Float 3))
              [0; 1; 2; 3; 0; 1]).
    vm_compute. reflexivity.
Defined.

(** X8.  The chaos game: every point [genPoints] appends is a pair of
    floats, and is the jump, by the cell's factor and override flag, from
    the point before it (the cell's current point for the first) toward
    one of the vertices of the inner polygon. *)
Theorem genPoints_chaos_game {Color} (h : Hex Color) t h' t' :
  genPoints h t = Ret h' t' ->
  exists new,
    points h' = points h ++ new /\
    consecutive (jumps_to h) (currentPoint h :: new) /\
    Forall float_point new.
Proof.
  unfold genPoints. intros H. apply genPoints_from_spec in H.
  destruct H as (new & Hpts & _ & _ & _ & _ & Hchain & Hfl & _).
  exists new. split; [exact Hpts|]. split; assumption.
Qed.

Lemma genPoints_chaos_game_witness :
  exists h1,
    genPoints (Desktop.cell Desktop.triangle 3 [] (Float 3)) [2; 2; 0]
      = Ret h1 [] /\
    exists new,
      points h1 = [(Int 0, Int 0); (Int 0, Int 0)] ++ new /\
      consecutive (jumps_to (Desktop.cell Desktop.triangle 3 [] (Float 3)))
        ((Int 0, Int 0) :: new) /\
      Forall float_point new.
Proof.
  eexists. split.
  - vm_compute. reflexivity.
  - apply (genPoints_chaos_game
             (Desktop.cell Desktop.triangle 3 [] (Float 3)) [2; 2; 0] _ []).
    vm_compute. reflexivity.
Defined.

(** X9.  Every iteration of [genPoints] reads at least one draw, and in
    override mode exactly one: a run of [itr] iterations that returns has
    read [itr] draws or more, and exactly [itr] on a triangle. *)
Theorem genPoints_draw_count {Color} (h : Hex Color) t h' t' :
  genPoints h t = Ret h' t' ->
  len t' + Z.max 0 (itr h) <= len t /\
  (override h = true -> len t = len t' + Z.max 0 (itr h)).
Proof.
  unfold genPoints. intros H. apply genPoints_from_spec in H.
  destruct H as (new & _ & _ & _ & _ & _ & _ & _ & Hd & Hdo & _).
  unfold len. split; [lia|]. intros Ho. specialize (Hdo Ho). lia.
Qed.

Lemma genPoints_draw_count_witness :
  exists h1 rest,
    genPoints (Desktop.cell Desktop.square 2 [true; true; false; false; true]
                 (Float 3)) [0; 0; 1; 1; 2; 3; 0; 1] = Ret h1 rest /\
    len rest + Z.max 0 2 <= len [0; 0; 1; 1; 2; 3; 0; 1].
Proof.
  eexists. eexists. split.
  - vm_compute. reflexivity.
  - eapply (genPoints_draw_count
              (Desktop.cell Desktop.square 2
                 [true; true; false; false; true] (Float 3))
              [0; 0; 1; 1; 2; 3; 0; 1]).
    vm_compute. reflexivity.
Defined.

(** ** Further properties of the constructor *)

Lemma mul_Float_r x f r : mul x (Float f) = Val r -> exists g, r = Float g.
Proof.
  unfold mul, arith, rbind. destruct x as [a|a]; cbn [to_float].
  - destruct (float_of_Z a); [|discriminate]. intros H. inversion H. eauto.
  - intros H. inversion H. eauto.
Qed.

Lemma ring_Val cos sin radius step n : forall i vs,
  ring cos sin radius step i n = Val vs ->
  length vs = n /\ Forall float_point vs.
Proof.
  induction n as [|n IH]; intros i vs H.
  - inversion H; subst. split; [reflexivity | constructor].
  - cbn [ring] in H. unfold rbind at 1 in H.
    destruct (_ .+ _) as [px|] eqn:Epx; [|discriminate].
    unfold rbind at 1 in H.
    destruct (_ .+ _) as [py|] eqn:Epy in H; [|discriminate].
    unfold rbind at 1 in H.
    destruct (ring cos sin radius step (i + 1) n) as [rest|] eqn:Er;
      [|discriminate].
    inversion H; subst. destruct (IH _ _ Er) as [Hl Hf].
    assert (Hfloat : forall c q,
               Hex_r .+ Int 50 .+ radius .* c = Val q ->
               (forall v, c = Val v -> exists g, v = Float g) ->
               exists g, q = Float g).
    { intros c q Hq Hc. unfold lift2 at 1 in Hq. unfold rbind at 1 in Hq.
      destruct (Hex_r .+ Int 50) as [u|]; [|discriminate].
      unfold rbind at 1 in Hq.
      destruct (radius .* c) as [w|] eqn:Ew; [|discriminate].
      unfold lift2, rbind in Ew.
      destruct radius as [rv|]; [|discriminate].
      destruct c as [cv|]; [|discriminate].
      destruct (Hc cv eq_refl) as [g ->].
      apply mul_Float_r in Ew as [g' ->].
      eapply add_Float_r. exact Hq. }
    assert (Hcos : forall a v, math_cos cos a = Val v -> exists g, v = Float g).
    { intros a v. unfold math_cos, rbind. destruct a; [|discriminate].
      destruct (to_float _); [|discriminate]. intros E. inversion E. eauto. }
    assert (Hsin : forall a v, math_sin sin a = Val v -> exists g, v = Float g).
    { intros a v. unfold math_sin, rbind. destruct a; [|discriminate].
      destruct (to_float _); [|discriminate]. intros E. inversion E. eauto. }
    destruct (Hfloat _ _ Epx (Hcos _)) as [gx ->].
    destruct (Hfloat _ _ Epy (Hsin _)) as [gy ->].
    split; [cbn [length]; lia|].
    constructor; [exists gx, gy; reflexivity | exact Hf].
Qed.

(** X10.  The cell the constructor returns: a hull of six float vertices
    and an inner polygon of 3 to 8 float vertices, both drawn on its
    surface; override mode exactly for a triangle; the position, rules and
    factor it was given; 5000 iterations run from the two seed points, so
    5002 points with the cursor on the first; and a gradient from one of
    the six named colours to another.  At least 5003 draws are read. *)
Theorem Hex_init_cell cos sin {Color} (Color_ : string -> Color) range_to
    x0 y0 rs fac t (h : Hex Color) t' :
  Hex_init cos sin Color_ range_to x0 y0 rs fac t = Ret h t' ->
  (length (verts h) = 6%nat /\ Forall float_point (verts h)) /\
  (3 <= len (polyverts h) <= 8 /\ Forall float_point (polyverts h)) /\
  surface h = [ Polygon (Int 100, Int 100, Int 100) (verts h);
                Polygon (Int 50, Int 50, Int 50) (polyverts h) ] /\
  override h = (len (polyverts h) =? 3) /\
  (x h = x0 /\ y h = y0 /\ rules h = rs /\ factor h = fac) /\
  (itr h = 5000 /\ pointIndex h = 0 /\ len (points h) = 5002 /\
   firstn 2 (points h) = [(Int 0, Int 0); (Int 0, Int 0)]) /\
  (exists a b,
     In a (colors Color_) /\ In b (colors Color_) /\
     grad h = range_to a b 255) /\
  len t' + 5003 <= len t.
Proof.
  unfold Hex_init. intros H.
  apply bind_Ret in H as (vs & t1 & Hvs & H).
  apply lift_Ret in Hvs as [Hvs ->]. apply ring_Val in Hvs as [Lvs Fvs].
  apply bind_Ret in H as (poly & t2 & Hpoly & H).
  pose proof (randint_range _ _ _ _ _ Hpoly) as Rpoly.
  pose proof (draws_randint _ _ _ _ _ Hpoly) as Dpoly.
  apply bind_Ret in H as (pv & t3 & Hpv & H).
  apply lift_Ret in Hpv as [Hpv ->]. apply ring_Val in Hpv as [Lpv Fpv].
  apply bind_Ret in H as (g & t4 & Hg & H).
  unfold genGradient in Hg.
  apply bind_Ret in Hg as (a & u1 & Ha & Hg).
  pose proof (draws_randint _ _ _ _ _ Ha) as Da.
  apply bind_Ret in Hg as (ca & u2 & Hca & Hg).
  apply lift_Ret in Hca as [Hca ->]. apply getitem_In in Hca.
  apply bind_Ret in Hg as (b & u3 & Hb & Hg).
  pose proof (draws_randint _ _ _ _ _ Hb) as Db.
  apply bind_Ret in Hg as (cb & u4 & Hcb & Hg).
  apply lift_Ret in Hcb as [Hcb ->]. apply getitem_In in Hcb.
  inversion Hg; subst g t4. clear Hg.
  unfold genPoints in H. apply genPoints_from_spec in H.
  destruct H as (new & Hpts & Hlen & Hsame & _ & _ & _ & _ & Hd & _).
  cbn [points itr] in Hpts, Hlen, Hd.
  destruct Hsame as (Hx & Hy & Hverts & Hpolyverts & Hitr & Hidx & Hrules &
                     Hfactor & Hsurface & Hoverride & Hgrad).
  cbn [x y verts polyverts itr pointIndex rules factor surface override grad]
    in *.
  rewrite Hverts, Hpolyverts, Hsurface, Hoverride, Hx, Hy, Hrules, Hfactor,
    Hitr, Hidx, Hgrad, Hpts.
  split; [split; assumption|].
  split; [split; [unfold len; lia | assumption]|].
  split; [reflexivity|]. split; [reflexivity|].
  split; [repeat split|].
  split.
  { split; [reflexivity|]. split; [reflexivity|].
    split; [unfold len; rewrite length_app, Hlen; reflexivity | reflexivity]. }
  split; [exists ca, cb; repeat split; assumption|].
  unfold len.
  change (Z.to_nat 5000) with 5000%nat in Hd. lia.
Qed.

Lemma Hex_init_cell_witness :
  exists (h : Hex Desktop.Color) rest,
    Hex_init Desktop.cos Desktop.sin Desktop.Color_ Desktop.range_to
      (Int 726) (Int 215) [true; false; true; false; true] (Int 3)
      (1 :: 0 :: 4 :: Desktop.zigzag 12500) = Ret h rest /\
    3 <= len (polyverts h) <= 8 /\
    len (points h) = 5002 /\
    override h = (len (polyverts h) =? 3).
Proof.
  destruct (Hex_init_returns Desktop.cos Desktop.sin Desktop.Color_
              Desktop.range_to (Int 726) (Int 215)
              [true; false; true; false; true] (Int 3) 1 0 4
              (Desktop.zigzag 12500)) as (h & rest & E & _).
  - cbn. lia.
  - exists 3%float. split; reflexivity.
  - vm_compute. reflexivity.
  - vm_compute. discriminate.
  - exists h, rest. split; [exact E|].
    destruct (Hex_init_cell _ _ _ _ _ _ _ _ _ _ _ E)
      as (_ & (Hpoly & _) & _ & Hov & _ & (_ & _ & Hpts & _) & _).
    split; [exact Hpoly|]. split; [exact Hpts | exact Hov].
Defined.

Lemma genPoints_from_returns_override {Color} k : forall (h : Hex Color) t,
  0 < len (polyverts h) -> prevChoice h < len (polyverts h) ->
  Forall float_point (polyverts h) ->
  convertible (fst (currentPoint h)) -> convertible (snd (currentPoint h)) ->
  override h = true -> (k <= length t)%nat ->
  exists h', genPoints_from k h t = Ret h' (skipn k t).
Proof.
  induction k as [|k IH]; intros h t Hn Hprev Hverts Hcx Hcy Ho Hlen.
  - exists h. reflexivity.
  - destruct t as [|d t]; [cbn in Hlen; lia|]. cbn [length] in Hlen.
    assert (Hidx : 0 <= d mod len (polyverts h) < len (polyverts h))
      by (apply Z.mod_pos_bound; lia).
    destruct (getitem_Forall float_point (polyverts h) _ Hverts Hidx)
      as (v & Ev & (a & b & ->)).
    destruct (jumppoint_Val a b (currentPoint h) (factor h) (override h)
                Hcx Hcy (or_introl Ho)) as (px & py & Ej).
    cbn [genPoints_from skipn]. unfold bind at 1.
    assert (Ec : chooseNext (polyverts h) (prevChoice h) (rules h)
                   (override h) (d :: t)
                 = Ret (d mod len (polyverts h)) t).
    { rewrite Ho. unfold chooseNext.
      destruct (Z.geb_spec (prevChoice h) (len (polyverts h))); [lia|].
      unfold bind. rewrite (randint_0 _ d t Hn). reflexivity. }
    rewrite Ec. unfold bind at 1. rewrite Ev. cbn [lift ret fst snd].
    unfold bind at 1. rewrite Ej. cbn [lift ret].
    apply IH;
      cbn [record_point polyverts prevChoice currentPoint override fst snd];
      try assumption; try lia; eexists; reflexivity.
Qed.

(** X11.  The constructor returns a cell of 5002 points whenever the
    draws allow the loops to end.  After the first three draws (vertex
    count and gradient colours): for a triangle, which the first draw
    selects when it is a multiple of 6, any 5000 further draws do, whatever
    the rules and the factor, even none and zero; for the other polygons,
    25000 draws that alternate among the vertices do, given four rules and
    a factor that is not zero. *)
Theorem Hex_init_terminates cos sin {Color} (Color_ : string -> Color)
    range_to x0 y0 rs fac d0 d1 d2 t :
  (d0 mod 6 = 0 -> 5000 <= len t ->
   exists (h : Hex Color),
     Hex_init cos sin Color_ range_to x0 y0 rs fac (d0 :: d1 :: d2 :: t)
     = Ret h (skipn 5000 t) /\ len (points h) = 5002) /\
  ((4 <= length rs)%nat ->
   (exists g, to_float fac = Val g /\ (g =? 0)%float = false) ->
   alternating (3 + d0 mod 6) t = true -> 25000 <= len t ->
   exists (h : Hex Color) t',
     Hex_init cos sin Color_ range_to x0 y0 rs fac (d0 :: d1 :: d2 :: t)
     = Ret h t' /\ len (points h) = 5002).
Proof.
  split; [|apply Hex_init_returns].
  intros Hd0 Hlen.
  assert (Ex : exists h,
             Hex_init cos sin Color_ range_to x0 y0 rs fac
               (d0 :: d1 :: d2 :: t) = Ret h (skipn 5000 t)).
  2:{ destruct Ex as (h & E). exists h. split; [exact E|].
      eapply Hex_init_length. exact E. }
  unfold Hex_init.
  destruct (ring_float_points cos sin 150 150 (math_pi / 3) 6 eq_refl 0)
    as (vs & Evs & _ & _).
  { intros j Hj. apply small_convertible. lia. }
  replace (Hex_r .+ Int 50) with (evaluated (Int 150)) by reflexivity.
  replace (Float math_pi ./ Int 3) with (evaluated (Float (math_pi / 3)))
    by (vm_compute; reflexivity).
  unfold bind at 1. rewrite Evs. cbn [lift ret].
  unfold bind at 1. unfold randint at 1.
  cbn [Z.ltb Z.compare Pos.compare Pos.compare_cont].
  replace (8 - 3 + 1) with 6 by lia. rewrite Hd0.
  change (3 + 0) with 3.
  assert (Hstep : exists s,
             Int 2 .* Float math_pi ./ Int 3 = evaluated (Float s))
    by (eexists; vm_compute; reflexivity).
  destruct Hstep as [s ->].
  destruct (ring_float_points cos sin 100 100 s (Z.to_nat 3) eq_refl 0)
    as (pv & Epv & Hpv & Lpv).
  { intros j Hj. apply small_convertible. lia. }
  unfold bind at 1. change (evaluated Hex_r) with (evaluated (Int 100)).
  rewrite Epv. cbn [lift ret].
  assert (Hlenpv : len pv = 3) by (unfold len; lia).
  unfold bind at 1. unfold genGradient, bind at 1.
  change (len (colors Color_)) with 6.
  rewrite (randint_0 6 d1) by lia.
  destruct (getitem_in_range (colors Color_) (d1 mod 6)) as [from Efrom].
  { change (len (colors Color_)) with 6. apply Z.mod_pos_bound. lia. }
  unfold bind at 1. rewrite Efrom. cbn [lift ret].
  unfold bind at 1. rewrite (randint_0 6 d2) by lia.
  destruct (getitem_in_range (colors Color_) (d2 mod 6)) as [to Eto].
  { change (len (colors Color_)) with 6. apply Z.mod_pos_bound. lia. }
  unfold bind at 1. rewrite Eto. cbn [lift ret].
  unfold genPoints. cbn [itr]. change (Z.to_nat 5000) with 5000%nat.
  apply genPoints_from_returns_override;
    cbn [polyverts prevChoice currentPoint override fst snd];
    rewrite ?Hlenpv; try lia; try assumption; try reflexivity;
    try (exists 0%float; reflexivity).
  unfold len in Hlen. lia.
Qed.

Lemma Hex_init_terminates_witness :
  exists (h : Hex Desktop.Color),
    Hex_init Desktop.cos Desktop.sin Desktop.Color_ Desktop.range_to
      (Int 726) (Int 215) [] (Int 0)
      (6 :: 0 :: 4 :: Desktop.zigzag 2500)
    = Ret h (skipn 5000 (Desktop.zigzag 2500)) /\
    len (points h) = 5002.
Proof.
  apply (proj1 (Hex_init_terminates Desktop.cos Desktop.sin Desktop.Color_
                  Desktop.range_to (Int 726) (Int 215) [] (Int 0) 6 0 4
                  (Desktop.zigzag 2500))).
  - reflexivity.
  - vm_compute. discriminate.
Defined.

(** ** Further properties of the renderer *)

(** X12.  Drawing past the sequence is an error: when the cursor is at or
    beyond the number of points (or below its negative, where Python's
    indexing from the end stops) [drawNext] raises [IndexError] before
    reading any draw. *)
Theorem drawNext_exhausted {Color} (red green blue : Color -> float)
    (h : Hex Color) t :
  len (points h) <= pointIndex h \/ pointIndex h < - len (points h) ->
  drawNext red green blue h t = Raise IndexError.
Proof.
  intros Hidx. unfold drawNext, bind.
  assert (E : getitem (points h) (pointIndex h) = Err IndexError).
  { unfold getitem. destruct (Z.ltb_spec (pointIndex h) 0).
    - destruct (Z.ltb_spec (pointIndex h + len (points h)) 0);
        [reflexivity|].
      unfold len in *. lia.
    - destruct (Z.ltb_spec (pointIndex h) 0); [lia|].
      destruct (nth_error (points h) (Z.to_nat (pointIndex h))) eqn:En;
        [|reflexivity].
      assert (Hlt : (Z.to_nat (pointIndex h) < length (points h))%nat)
        by (apply nth_error_Some; congruence).
      unfold len in *. lia. }
  rewrite E. reflexivity.
Qed.

Lemma drawNext_exhausted_witness :
  drawNext Desktop.red Desktop.green Desktop.blue
    (mkHex (Int 0) (Int 0) [] Desktop.triangle 0 (Int 0, Int 0)
       [(Int 0, Int 0); (Int 0, Int 0)] 2 [] (Int 2) [] true 0
       (Desktop.range_to (Desktop.Color_ "red") (Desktop.Color_ "blue") 255))
    [0; 1] = Raise IndexError.
Proof.
  apply drawNext_exhausted. left. cbn. lia.
Defined.

(** X13.  What one call of [drawNext] does: it reads one draw, whose
    parity picks the x or the y coordinate of the point under the cursor;
    it draws one circle of radius 1 at that point, coloured with the
    gradient entry [int(c) % 255] of the picked coordinate [c]; and it
    moves the cursor by one.  The points, the gradient and the rest of the
    cell are left as they were. *)
Theorem drawNext_Ret {Color} (red green blue : Color -> float)
    (h : Hex Color) t h' t' :
  drawNext red green blue h t = Ret h' t' ->
  exists d i k g r gg b,
    t = d :: t' /\
    getitem (points h) (pointIndex h) = Val i /\
    int (if d mod 2 =? 0 then fst i else snd i) = Val k /\
    getitem (grad h) (k mod 255) = Val g /\
    Float (red g) .* Int 255 = Val r /\
    Float (green g) .* Int 255 = Val gg /\
    Float (blue g) .* Int 255 = Val b /\
    h' = mkHex (x h) (y h) (verts h) (polyverts h) (itr h) (currentPoint h)
           (points h) (pointIndex h + 1) (rules h) (factor h)
           (surface h ++ [Circle (r, gg, b) i 1]) (override h)
           (prevChoice h) (grad h).
Proof.
  unfold drawNext. intros H.
  apply bind_Ret in H as (i & t1 & Hi & H). apply lift_Ret in Hi as [Hi ->].
  apply bind_Ret in H as (index & t2 & Hch & H).
  unfold choice in Hch. destruct t as [|d t0]; [discriminate|].
  apply lift_Ret in Hch as [Hch ->]. change (len [0; 1]) with 2 in Hch.
  apply bind_Ret in H as (c & t3 & Hc & H). apply lift_Ret in Hc as [Hc ->].
  apply bind_Ret in H as (colour & t4 & Hcol & H).
  apply lift_Ret in Hcol as [Hcol ->].
  inversion H; subst h' t'. clear H.
  assert (Ec : c = if d mod 2 =? 0 then fst i else snd i).
  { pose proof (Z.mod_pos_bound d 2 ltac:(lia)) as Hd.
    assert (Hcases : d mod 2 = 0 \/ d mod 2 = 1) by lia.
    destruct Hcases as [E|E]; rewrite E in Hch |- *; cbn in Hch;
      inversion Hch; subst index; cbn in Hc; inversion Hc; reflexivity. }
  subst c. unfold grad_at in Hcol.
  destruct (int _) as [k|] eqn:Ek; [|discriminate]. cbn [rbind] in Hcol.
  destruct (getitem (grad h) (k mod 255)) as [g|] eqn:Eg; [|discriminate].
  cbn [rbind] in Hcol.
  destruct (Float (red g) .* Int 255) as [r|] eqn:Er; [|discriminate].
  cbn [rbind] in Hcol.
  destruct (Float (green g) .* Int 255) as [gg|] eqn:Egg; [|discriminate].
  cbn [rbind] in Hcol.
  destruct (Float (blue g) .* Int 255) as [b|] eqn:Eb; [|discriminate].
  cbn [rbind] in Hcol. injection Hcol as <-.
  exists d, i, k, g, r, gg, b. repeat split; assumption || reflexivity.
Qed.

Lemma drawNext_Ret_witness :
  exists h1,
    drawNext Desktop.red Desktop.green Desktop.blue
      (Desktop.cell Desktop.triangle 3 [] (Float 3)) [1; 4] = Ret h1 [4] /\
    pointIndex h1 = 1 /\
    points h1 = [(Int 0, Int 0); (Int 0, Int 0)] /\
    length (surface h1) = 1%nat.
Proof.
  eexists. split; [vm_compute; reflexivity|].
  assert (E : drawNext Desktop.red Desktop.green Desktop.blue
                (Desktop.cell Desktop.triangle 3 [] (Float 3)) [1; 4]
              = Ret _ [4]) by (vm_compute; reflexivity).
  destruct (drawNext_Ret _ _ _ _ _ _ _ E)
    as (d & i & k & g & r & gg & b & _ & _ & _ & _ & _ & _ & _ & Eh).
  rewrite Eh. repeat split.
Defined.

(** ** Further properties of the tile placement *)

Lemma truediv_sub_Float (a b c q : num) :
  a ./ b .- c = Val q -> exists f, q = Float f.
Proof.
  unfold lift2, evaluated. cbn [rbind]. intros H.
  destruct (truediv a b) as [d|] eqn:Ed; cbn [rbind] in H; [|discriminate].
  apply truediv_Val in Ed as [f ->].
  unfold sub, arith, rbind in H. cbn [to_float] in H.
  destruct (to_float c); [|discriminate]. inversion H. eauto.
Qed.

Section PlacementShape.

Variables width height : Z.
Variables cos sin : float -> float.

Lemma coords0_float_seed seed :
  coords0 width height = Val [seed] -> float_point seed.
Proof.
  unfold coords0. intros H. unfold rbind at 1 in H.
  destruct (Int width ./ Int 2 .- Int 400) as [sx|] eqn:Ex; [|discriminate].
  unfold rbind at 1 in H.
  destruct (Int height ./ Int 2 .- Int 400) as [sy|] eqn:Ey; [|discriminate].
  inversion H; subst.
  apply truediv_sub_Float in Ex as [fx ->].
  apply truediv_sub_Float in Ey as [fy ->].
  exists fx, fy. reflexivity.
Qed.

Lemma steps_to_int_point prev c : steps_to cos sin prev c -> int_point c.
Proof.
  intros (a & _ & H). unfold truncated_step, rbind in H.
  destruct (_ .+ _) as [nx|]; [|discriminate].
  destruct (_ .+ _) as [ny|]; [|discriminate].
  unfold intTuple, rbind in H. cbn [fst snd] in H.
  destruct (int nx) as [ix|]; [|discriminate].
  destruct (int ny) as [iy|]; [|discriminate].
  inversion H. exists ix, iy. reflexivity.
Qed.

(** X14.  The sequence the placement returns starts with the seed, the
    float pair [(width/2 - 400, height/2 - 400)], and every anchor after it
    is a pair of ints. *)
Theorem plan_seed_then_integers minCount maxCount (t : tape) coords t' :
  plan width height cos sin minCount maxCount t = Ret coords t' ->
  exists seed rest,
    coords0 width height = Val [seed] /\ float_point seed /\
    coords = seed :: rest /\ Forall int_point rest.
Proof.
  apply (plan_inv width height cos sin
           (fun l => exists seed rest,
                coords0 width height = Val [seed] /\ float_point seed /\
                l = seed :: rest /\ Forall int_point rest)).
  - intros seed Hs. exists seed, []. split; [exact Hs|].
    split; [apply coords0_float_seed; exact Hs|].
    split; [reflexivity | constructor].
  - intros cs prev coord (seed & rest & Hs & Hf & -> & Hrest) _ Hstep _.
    exists seed, (rest ++ [coord]). split; [exact Hs|]. split; [exact Hf|].
    split; [reflexivity|]. apply Forall_app. split; [exact Hrest|].
    constructor; [eapply steps_to_int_point; exact Hstep | constructor].
Qed.

(** What [k] passes of the placement loop append. *)
Lemma place_shape k : forall coords t coords' t',
  place width height cos sin k coords t = Ret coords' t' ->
  exists new,
    coords' = coords ++ new /\ (length new <= k)%nat /\
    (k <> 0%nat -> new <> []) /\
    (forall l c, new = l ++ [c] ->
       Forall (fun a => off_view width height a = false) l) /\
    ((length new < k)%nat ->
     exists l c, new = l ++ [c] /\ off_view width height c = true).
Proof.
  induction k as [|k IH]; intros coords t coords' t' H.
  - inversion H; subst. exists []. rewrite app_nil_r.
    split; [reflexivity|]. split; [cbn; lia|]. split; [congruence|].
    split; [intros l c E; destruct l; discriminate | cbn; lia].
  - apply place_S in H as (prev & c & t1 & _ & _ & _ & H).
    destruct (off_view width height c) eqn:Eoff.
    + destruct H as [-> _]. exists [c].
      split; [reflexivity|]. split; [cbn; lia|]. split; [discriminate|].
      split.
      * intros l c' E. destruct l as [|a l]; [constructor|].
        destruct l; discriminate.
      * intros _. exists [], c. split; [reflexivity | exact Eoff].
    + apply IH in H as (new & -> & Hlen & Hne & Hview & Hstop).
      exists (c :: new).
      split; [rewrite <- app_assoc; reflexivity|].
      split; [cbn [length]; lia|]. split; [discriminate|]. split.
      * intros l c' E. destruct l as [|a l].
        -- constructor.
        -- cbn [app] in E. inversion E; subst.
           constructor; [exact Eoff | eapply Hview; reflexivity].
      * intros Hlt. cbn [length] in Hlt.
        destruct (Hstop ltac:(lia)) as (l & c' & -> & Hc').
        exists (c :: l), c'. split; [reflexivity | exact Hc'].
Qed.

(** X15.  The number of anchors and the view.  A count [n] between the
    bounds is drawn; the result is the seed followed by at most [n]
    anchors, at least one if [n] is positive; every anchor added but the
    last lies inside the view, and fewer than [n] are added only when the
    last one lies outside it.  The program, with bounds 7 and 15, returns
    between 2 and 16 anchors. *)
Theorem plan_stops_at_view_edge minCount maxCount (t : tape) coords t' :
  plan width height cos sin minCount maxCount t = Ret coords t' ->
  exists n seed new,
    minCount <= n <= maxCount /\
    coords0 width height = Val [seed] /\
    coords = seed :: new /\
    len new <= Z.max 0 n /\
    (0 < n -> new <> []) /\
    (forall l c, new = l ++ [c] ->
       Forall (fun a => off_view width height a = false) l) /\
    (len new < n ->
     exists l c, new = l ++ [c] /\ off_view width height c = true).
Proof.
  unfold plan. intros H.
  apply bind_Ret in H as (seeds & t1 & Hs & H).
  apply lift_Ret in Hs as [Hs ->].
  destruct (coords0_singleton width height seeds Hs) as [seed ->].
  apply bind_Ret in H as (n & t2 & Hn & H).
  apply randint_range in Hn.
  apply place_shape in H as (new & -> & Hlen & Hne & Hview & Hstop).
  exists n, seed, new. split; [exact Hn|]. split; [exact Hs|].
  split; [reflexivity|]. split; [unfold len; lia|].
  split; [intros Hpos; apply Hne; lia|]. split; [exact Hview|].
  intros Hlt. apply Hstop. unfold len in Hlt. lia.
Qed.

Lemma chooseNextSpot_cons prev d t :
  exists a,
    In a angles /\
    chooseNextSpot cos sin prev (d :: t)
    = lift (truncated_step cos sin prev a) t.
Proof.
  destruct (getitem_in_range angles (d mod 6)) as [a Ea].
  { change (len angles) with 6. apply Z.mod_pos_bound. lia. }
  exists a. split; [eapply getitem_In; exact Ea|].
  unfold chooseNextSpot, bind, choice. change (len angles) with 6.
  rewrite Ea. reflexivity.
Qed.

(** X16.  A dead end is never left: if each of the six steps from the
    last anchor lands within the tolerance of an anchor already placed,
    the next pass of the placement loop redraws for as long as there are
    draws and does not return, whatever they are. *)
Theorem place_dead_end coords prev k (t : tape) :
  getitem coords (-1) = Val prev ->
  (forall a, In a angles ->
     exists c,
       truncated_step cos sin prev a = Val c /\ found coords c = Val true) ->
  place width height cos sin (S k) coords t = Starved.
Proof.
  intros Hprev Hblocked.
  set (body := fun _ : point =>
                 prev0 <- lift (getitem coords (-1)) ;;
                 chooseNextSpot cos sin prev0).
  assert (Hbody : forall s t0, body s t0 = chooseNextSpot cos sin prev t0).
  { intros s t0. unfold body, bind. rewrite Hprev. reflexivity. }
  assert (Hloop : forall t0 fuel c,
             found coords c = Val true ->
             loop fuel (fun coord => lift (found coords coord)) body c t0
             = Starved).
  { intros t0. induction t0 as [|d t0 IH]; intros fuel c Hc;
      (destruct fuel as [|fuel]; [reflexivity|]); cbn [loop];
      rewrite Hc; cbn [lift ret]; rewrite Hbody.
    - reflexivity.
    - destruct (chooseNextSpot_cons prev d t0) as (a & Ha & ->).
      destruct (Hblocked a Ha) as (c' & -> & Hc'). cbn [lift ret].
      apply IH. exact Hc'. }
  cbn [place]. fold body. unfold bind at 1. rewrite Hprev. cbn [lift ret].
  destruct t as [|d t0]; [reflexivity|].
  unfold bind at 1.
  destruct (chooseNextSpot_cons prev d t0) as (a & Ha & ->).
  destruct (Hblocked a Ha) as (c & -> & Hc). cbn [lift ret].
  unfold bind at 1, while_. rewrite (Hloop t0 _ c Hc). reflexivity.
Qed.

End PlacementShape.

Lemma plan_seed_then_integers_witness :
  exists seed rest,
    coords0 Desktop.width Desktop.height = Val [seed] /\
    float_point seed /\
    [(Float 510, Float 90); (Int 510, Int 340); (Int 293, Int 465);
     (Int 293, Int 715); (Int 509, Int 840); (Int 725, Int 714);
     (Int 941, Int 839); (Int 941, Int 1089)] = seed :: rest /\
    Forall int_point rest.
Proof.
  apply (plan_seed_then_integers Desktop.width Desktop.height Desktop.cos
           Desktop.sin 7 15 [0; 1; 4; 2; 1; 0; 5; 0; 1] _ []).
  vm_compute. reflexivity.
Defined.

Lemma plan_stops_at_view_edge_witness :
  exists n seed new,
    7 <= n <= 15 /\
    coords0 Desktop.width Desktop.height = Val [seed] /\
    [(Float 510, Float 90); (Int 726, Int 215); (Int 942, Int 340);
     (Int 1158, Int 465); (Int 1374, Int 590); (Int 1590, Int 715);
     (Int 1806, Int 840); (Int 2022, Int 965)] = seed :: new /\
    len new <= Z.max 0 n /\
    (0 < n -> new <> []) /\
    (forall l c, new = l ++ [c] ->
       Forall (fun a => off_view Desktop.width Desktop.height a = false) l) /\
    (len new < n ->
     exists l c,
       new = l ++ [c] /\ off_view Desktop.width Desktop.height c = true).
Proof.
  apply (plan_stops_at_view_edge Desktop.width Desktop.height Desktop.cos
           Desktop.sin 7 15 [2; 0; 3; 0; 3; 0; 3; 0; 3; 0; 3; 0; 3; 0] _ []).
  vm_compute. reflexivity.
Defined.

Lemma place_dead_end_witness :
  plan Desktop.width Desktop.height Desktop.cos Desktop.sin 6 6
    [0; 0; 1; 2; 3; 4; 0] =
  Ret [(Float 510, Float 90); (Int 726, Int 215); (Int 726, Int 465);
       (Int 509, Int 590); (Int 292, Int 465); (Int 291, Int 215);
       (Int 507, Int 340)] [] /\
  place Desktop.width Desktop.height Desktop.cos Desktop.sin 1
    [(Float 510, Float 90); (Int 726, Int 215); (Int 726, Int 465);
     (Int 509, Int 590); (Int 292, Int 465); (Int 291, Int 215);
     (Int 507, Int 340)] [3; 1; 4; 1; 5; 9; 2; 6] = Starved.
Proof.
  split; [vm_compute; reflexivity|].
  apply (place_dead_end Desktop.width Desktop.height Desktop.cos Desktop.sin
           _ (Int 507, Int 340)).
  - reflexivity.
  - intros a Ha. cbn [angles In] in Ha.
    destruct Ha as [<-|[<-|[<-|[<-|[<-|[<-|[]]]]]]];
      eexists; (split; [vm_compute; reflexivity|]); vm_compute; reflexivity.
Defined.

(** ** The drawing loop *)

Lemma getitem_app_mid {A} (done : list A) h todo :
  getitem (done ++ h :: todo) (len done) = Val h.
Proof.
  unfold getitem, len. destruct (Z.ltb_spec (Z.of_nat (length done)) 0);
    [lia|].
  destruct (Z.ltb_spec (Z.of_nat (length done)) 0); [lia|].
  rewrite Nat2Z.id, nth_error_app2, Nat.sub_diag by lia. reflexivity.
Qed.

Lemma update_app_mid {A} (done : list A) h todo h' :
  update (done ++ h :: todo) (length done) h' = done ++ h' :: todo.
Proof.
  induction done as [|a done IH]; cbn [app length update];
    [reflexivity | rewrite IH; reflexivity].
Qed.

Lemma setitem_app_mid {A} (done : list A) h todo h' :
  setitem (done ++ h :: todo) (len done) h' = done ++ h' :: todo.
Proof.
  unfold setitem, len. destruct (Z.ltb_spec (Z.of_nat (length done)) 0);
    [lia|].
  rewrite Nat2Z.id. apply update_app_mid.
Qed.

Section Drawing.

Context {Color : Type}.
Variables red green blue : Color -> float.

Lemma drawNext_returns (h : Hex Color) d t :
  len (grad h) = 255 ->
  0 <= pointIndex h < len (points h) ->
  Forall finite_point (points h) ->
  exists h', drawNext red green blue h (d :: t) = Ret h' t /\ drawn 1 h h'.
Proof.
  intros Hg Hidx Hfin.
  destruct (getitem_Forall finite_point (points h) (pointIndex h) Hfin Hidx)
    as (i & Hi & Hx & Hy).
  pose proof (Z.mod_pos_bound d 2 ltac:(lia)) as Hd.
  assert (Hsel : exists index c,
             getitem [0; 1] (d mod 2) = Val index /\
             getitem [fst i; snd i] index = Val c /\ isfinite c = true).
  { assert (Hcases : d mod 2 = 0 \/ d mod 2 = 1) by lia.
    destruct Hcases as [E|E]; rewrite E;
      [exists 0, (fst i) | exists 1, (snd i)];
      (split; [reflexivity|]); (split; [reflexivity | assumption]). }
  destruct Hsel as (index & c & Hindex & Hc & Hcfin).
  destruct (grad_at_in_range (grad h) c Hg Hcfin) as [col Hcol].
  unfold drawNext, bind. rewrite Hi. cbn [lift ret].
  unfold choice. change (len [0; 1]) with 2. rewrite Hindex. cbn [lift ret].
  rewrite Hc. cbn [lift ret]. rewrite Hcol. cbn [rbind].
  unfold lift2, evaluated, mul, arith. cbn [rbind to_float].
  rewrite float_of_Z_255. cbn [rbind lift ret].
  eexists. split; [reflexivity|].
  unfold drawn. cbn [points grad pointIndex surface].
  split; [reflexivity|]. split; [reflexivity|]. split; [reflexivity|].
  unfold len. rewrite length_app. cbn [length]. lia.
Qed.

Lemma draw_dots_returns k : forall (h : Hex Color) done todo t,
  len (grad h) = 255 ->
  0 <= pointIndex h -> pointIndex h + Z.of_nat k <= len (points h) ->
  Forall finite_point (points h) ->
  (k <= length t)%nat ->
  exists h',
    draw_dots red green blue k (done ++ h :: todo) (len done) t
    = Ret (done ++ h' :: todo) (skipn k t) /\
    drawn (Z.of_nat k) h h'.
Proof.
  induction k as [|k IH]; intros h done todo t Hg Hlo Hhi Hfin Hlen.
  - exists h. split; [reflexivity|]. unfold drawn.
    repeat split; cbn; lia.
  - destruct t as [|d t]; [cbn in Hlen; lia|]. cbn [length] in Hlen.
    destruct (drawNext_returns h d t Hg ltac:(lia) Hfin)
      as (h1 & E1 & Hp1 & Hg1 & Hi1 & Hs1).
    destruct (IH h1 done todo t) as (h' & E' & Hp' & Hg' & Hi' & Hs');
      try rewrite Hp1; try rewrite Hg1; try rewrite Hi1;
      try assumption; try lia.
    exists h'. split.
    + cbn [draw_dots skipn]. unfold bind at 1.
      rewrite getitem_app_mid. cbn [lift ret]. unfold bind at 1.
      rewrite E1. rewrite setitem_app_mid. exact E'.
    + unfold drawn. rewrite Hp', Hg', Hi', Hs', Hp1, Hg1, Hi1, Hs1.
      repeat split; lia.
Qed.

Variables (D f : nat).
Hypothesis D_pos : (0 < D)%nat.

(** The passes spent on one cell: [j] drawing passes and the pass that
    moves on to the next cell. *)
Lemma render_cell j : forall (h : Hex Color) done todo m s t frames,
  len (grad h) = 255 ->
  0 <= pointIndex h ->
  pointIndex h + Z.of_nat (j * D) <= len (points h) ->
  Forall finite_point (points h) ->
  (j * D <= length t)%nat ->
  exists h',
    drawn (Z.of_nat (j * D)) h h' /\
    render_loop red green blue (S j + frames) (Z.of_nat (f * D))
      (Z.of_nat D)
      (mkRender (done ++ h :: todo) (len done) (Z.of_nat (j * D)) m s) t
    = render_loop red green blue frames (Z.of_nat (f * D)) (Z.of_nat D)
        (mkRender (done ++ h' :: todo) (len done + 1) (Z.of_nat (f * D))
           (m + Z.of_nat j) (s ++ count_from m j))
        (skipn (j * D) t).
Proof.
  assert (Hin : forall (done todo : list (Hex Color)) h,
             (len done <? len (done ++ h :: todo)) = true).
  { intros done todo h. apply Z.ltb_lt. unfold len.
    rewrite length_app. cbn [length]. lia. }
  induction j as [|j IH]; intros h done todo m s t frames Hg Hlo Hhi Hfin Hlen.
  - exists h. split; [unfold drawn; repeat split; cbn; lia|].
    cbn [Nat.add Nat.mul render_loop hexes currentHex]. rewrite Hin.
    unfold bind, frame. cbn [itrs_left Z.of_nat Z.gtb Z.compare ret hexes
                              currentHex images saved count_from skipn].
    rewrite Z.add_0_r, app_nil_r. reflexivity.
  - destruct (draw_dots_returns D h done todo t Hg Hlo ltac:(lia) Hfin
                ltac:(lia)) as (h1 & E1 & Hp1 & Hg1 & Hi1 & Hs1).
    destruct (IH h1 done todo (m + 1) (s ++ [m]) (skipn D t) frames)
      as (h' & (Hp' & Hg' & Hi' & Hs') & E');
      try rewrite Hp1; try rewrite Hg1; try rewrite Hi1;
      try assumption; try lia.
    { rewrite length_skipn. lia. }
    exists h'. split.
    { unfold drawn. rewrite Hp', Hg', Hi', Hs', Hp1, Hg1, Hi1, Hs1.
      repeat split; lia. }
    change (S (S j) + frames)%nat with (S (S j + frames)).
    cbn [render_loop hexes currentHex]. rewrite Hin.
    unfold bind at 1, frame. cbn [itrs_left hexes currentHex images saved].
    assert (Hpos : (Z.of_nat (S j * D) >? 0) = true)
      by (apply Z.gtb_lt; lia).
    rewrite Hpos. unfold bind at 1. rewrite Nat2Z.id, E1. cbn [ret].
    replace (Z.of_nat (S j * D) - Z.of_nat D) with (Z.of_nat (j * D)) by lia.
    rewrite E'. rewrite skipn_skipn.
    replace (j * D + D)%nat with (S j * D)%nat by lia.
    replace (m + 1 + Z.of_nat j) with (m + Z.of_nat (S j)) by lia.
    rewrite <- app_assoc. reflexivity.
Qed.

End Drawing.

Lemma count_from_app a j k :
  count_from a (j + k) = count_from a j ++ count_from (a + Z.of_nat j) k.
Proof.
  revert a. induction j as [|j IH]; intros a.
  - cbn [Nat.add count_from app Z.of_nat]. rewrite Z.add_0_r. reflexivity.
  - cbn [Nat.add count_from app]. rewrite IH. do 3 f_equal. lia.
Qed.

Lemma render_cells {Color} (red green blue : Color -> float) (D f : nat) :
  (0 < D)%nat ->
  forall (todo done : list (Hex Color)) m s t frames,
    Forall (drawable (Z.of_nat (f * D))) todo ->
    (length todo * (f * D) <= length t)%nat ->
    exists todo',
      Forall2 (drawn (Z.of_nat (f * D))) todo todo' /\
      render_loop red green blue (length todo * S f + frames)
        (Z.of_nat (f * D)) (Z.of_nat D)
        (mkRender (done ++ todo) (len done) (Z.of_nat (f * D)) m s) t
      = render_loop red green blue frames (Z.of_nat (f * D)) (Z.of_nat D)
          (mkRender (done ++ todo') (len done + len todo) (Z.of_nat (f * D))
             (m + Z.of_nat (length todo * f))
             (s ++ count_from m (length todo * f)))
          (skipn (length todo * (f * D)) t).
Proof.
  intros HD todo. induction todo as [|h todo IH];
    intros done m s t frames Hall Hlen.
  - exists []. split; [constructor|].
    cbn [length Nat.mul Nat.add count_from skipn Z.of_nat].
    change (len (@nil (Hex Color))) with 0.
    rewrite !Z.add_0_r, !app_nil_r. reflexivity.
  - inversion Hall as [|h0 l0 (Hidx & Hg & Hpts & Hfin) Hrest]; subst.
    cbn [length] in Hlen.
    destruct (render_cell red green blue D f HD f h done todo m s t
                (length todo * S f + frames) Hg ltac:(lia) ltac:(lia) Hfin
                ltac:(lia)) as (h' & Hdrawn & E).
    destruct (IH (done ++ [h']) (m + Z.of_nat f) (s ++ count_from m f)
                (skipn (f * D) t) frames Hrest) as (todo' & Hall' & E').
    { rewrite length_skipn. lia. }
    exists (h' :: todo'). split; [constructor; assumption|].
    replace (length (h :: todo) * S f + frames)%nat
      with (S f + (length todo * S f + frames))%nat by (cbn [length]; lia).
    rewrite E.
    replace (done ++ h' :: todo) with ((done ++ [h']) ++ todo)
      by (rewrite <- app_assoc; reflexivity).
    replace (len done + 1) with (len (done ++ [h']))
      by (unfold len; rewrite length_app; cbn [length]; lia).
    rewrite E'. rewrite skipn_skipn.
    replace (length todo * (f * D) + f * D)%nat
      with (length (h :: todo) * (f * D))%nat by (cbn [length]; lia).
    replace ((done ++ [h']) ++ todo') with (done ++ h' :: todo')
      by (rewrite <- app_assoc; reflexivity).
    replace (len (done ++ [h']) + len todo) with (len done + len (h :: todo))
      by (unfold len; rewrite length_app; cbn [length]; lia).
    replace (m + Z.of_nat f + Z.of_nat (length todo * f))
      with (m + Z.of_nat (length (h :: todo) * f)) by (cbn [length]; lia).
    replace (length (h :: todo) * f)%nat with (f + length todo * f)%nat
      by (cbn [length]; lia).
    rewrite count_from_app, app_assoc. reflexivity.
Qed.

(** X18.  The drawing loop, for [f] batches of [D] dots per cell
    ([f * D] dots per cell and [D] per pass; the program has 5 and 1000).
    Given cells with the cursor on their first point, a gradient of 255
    colours and at least [f * D] points, all finite, enough passes
    ([f + 1] per cell) and enough draws (one per dot), the loop ends past
    the last cell; every cell has had exactly [f * D] dots drawn, from its
    first [f * D] points, and keeps its points; one draw was read per dot;
    and the snapshots were saved under the numbers 1, 2, ..., [f] per
    cell, in order. *)
Theorem render_draws_every_cell {Color} (red green blue : Color -> float)
    (D f frames : nat) (hs : list (Hex Color)) (t : tape) :
  (0 < D)%nat ->
  Forall (drawable (Z.of_nat (f * D))) hs ->
  (length hs * S f <= frames)%nat ->
  (length hs * (f * D) <= length t)%nat ->
  exists hs',
    render red green blue (Z.of_nat (f * D)) (Z.of_nat D) frames hs t
    = Ret (mkRender hs' (len hs) (Z.of_nat (f * D))
             (1 + Z.of_nat (length hs * f))
             (count_from 1 (length hs * f)))
          (skipn (length hs * (f * D)) t) /\
    Forall2 (drawn (Z.of_nat (f * D))) hs hs'.
Proof.
  intros HD Hall Hframes Hlen.
  destruct (render_cells red green blue D f HD hs [] 1 [] t
              (frames - length hs * S f) Hall Hlen) as (hs' & Hall' & E).
  exists hs'. split; [|exact Hall'].
  unfold render.
  replace frames with (length hs * S f + (frames - length hs * S f))%nat
    at 1 by lia.
  cbn [app] in E. change (len (@nil (Hex Color))) with 0 in E.
  rewrite E. cbn [app]. rewrite Z.add_0_l.
  assert (Hend : (len hs <? len hs') = false).
  { apply Z.ltb_ge. unfold len.
    rewrite (Forall2_length Hall'). lia. }
  destruct (frames - length hs * S f)%nat;
    cbn [render_loop hexes currentHex]; rewrite Hend; reflexivity.
Qed.

Lemma render_draws_every_cell_witness :
  exists hs',
    render Desktop.red Desktop.green Desktop.blue 2 1 6
      [ Desktop.cell Desktop.triangle 3 [] (Float 3);
        Desktop.cell Desktop.square 3 [true; true; false; false; true]
          (Float 3) ]
      [0; 1; 1; 0; 7]
    = Ret (mkRender hs' 2 2 5 [1; 2; 3; 4]) [7] /\
    Forall2 (drawn 2)
      [ Desktop.cell Desktop.triangle 3 [] (Float 3);
        Desktop.cell Desktop.square 3 [true; true; false; false; true]
          (Float 3) ]
      hs'.
Proof.
  assert (Hlen : forall a b, len (Desktop.range_to a b 255) = 255).
  { intros a b. unfold Desktop.range_to, len.
    rewrite length_map, length_seq. reflexivity. }
  assert (Hcell : forall pv rs,
             drawable 2 (Desktop.cell pv 3 rs (Float 3))).
  { intros pv rs. unfold drawable. cbn [Desktop.cell pointIndex grad points].
    split; [reflexivity|]. split; [apply Hlen|]. split; [cbn; lia|].
    repeat constructor. }
  destruct (render_draws_every_cell Desktop.red Desktop.green Desktop.blue
              1 2 6
              [ Desktop.cell Desktop.triangle 3 [] (Float 3);
                Desktop.cell Desktop.square 3
                  [true; true; false; false; true] (Float 3) ]
              [0; 1; 1; 0; 7]) as (hs' & E & Hd).
  - lia.
  - constructor; [apply Hcell|]. constructor; [apply Hcell | constructor].
  - cbn. lia.
  - cbn. lia.
  - exists hs'. split; [exact E | exact Hd].
Defined.

(** ** Building the cells *)

Lemma factors_nonzero fac :
  In fac factors ->
  exists g, to_float fac = Val g /\ (g =? 0)%float = false.
Proof.
  intros H. cbn [factors In] in H.
  destruct H as [<-|[<-|[<-|[<-|[<-|[<-|[<-|[<-|[]]]]]]]]];
    eexists; (split; [vm_compute; reflexivity|]); vm_compute; reflexivity.
Qed.

Lemma randBools_Ret n : forall t bs t',
  randBools n t = Ret bs t' ->
  length bs = n /\ (length t' + n = length t)%nat.
Proof.
  induction n as [|n IH]; intros t bs t' H.
  - inversion H; subst. split; [reflexivity | lia].
  - cbn [randBools] in H.
    apply bind_Ret in H as (b & t1 & Hb & H).
    apply bind_Ret in H as (bs0 & t2 & Hbs & H).
    inversion H; subst. apply IH in Hbs as [Hl Hd].
    unfold randBool in Hb. apply bind_Ret in Hb as (r & t3 & Hr & Hb).
    inversion Hb; subst. unfold random_random in Hr.
    destruct t as [|d t]; [discriminate|].
    apply lift_Ret in Hr as [_ ->].
    split; cbn [length]; lia.
Qed.

Lemma choice_draws {A} (seq : list A) : draws (choice seq).
Proof.
  intros t a rest. unfold choice. destruct seq; [discriminate|].
  destruct t as [|d t0]; [discriminate|].
  intros H. apply lift_Ret in H as [_ ->]. cbn [length]. lia.
Qed.

Lemma Hex_init_setup cos sin {Color} (Color_ : string -> Color) range_to
    x0 y0 rs fac t (h : Hex Color) t' :
  Hex_init cos sin Color_ range_to x0 y0 rs fac t = Ret h t' ->
  x h = x0 /\ y h = y0 /\ rules h = rs /\ factor h = fac /\
  pointIndex h = 0 /\ len (points h) = 5002 /\
  len t' + 5003 <= len t.
Proof.
  unfold Hex_init. intros H.
  apply bind_Ret in H as (vs & t1 & Hvs & H).
  apply lift_Ret in Hvs as [_ ->].
  apply bind_Ret in H as (poly & t2 & Hpoly & H).
  apply draws_randint in Hpoly.
  apply bind_Ret in H as (pv & t3 & Hpv & H).
  apply lift_Ret in Hpv as [_ ->].
  apply bind_Ret in H as (g & t4 & Hg & H).
  unfold genGradient in Hg.
  apply bind_Ret in Hg as (a & u1 & Ha & Hg). apply draws_randint in Ha.
  apply bind_Ret in Hg as (ca & u2 & Hca & Hg).
  apply lift_Ret in Hca as [_ ->].
  apply bind_Ret in Hg as (b & u3 & Hb & Hg). apply draws_randint in Hb.
  apply bind_Ret in Hg as (cb & u4 & Hcb & Hg).
  apply lift_Ret in Hcb as [_ ->].
  inversion Hg; subst g t4. clear Hg.
  unfold genPoints in H. apply genPoints_from_spec in H.
  destruct H as (new & Hpts & Hlen & Hsame & _ & _ & _ & _ & Hd & _).
  cbn [points itr] in Hpts, Hlen, Hd.
  destruct Hsame as (Hx & Hy & _ & _ & _ & Hidx & Hrules & Hfactor & _).
  cbn [x y pointIndex rules factor] in *.
  repeat (split; [assumption|]).
  unfold len.
  split; [rewrite Hpts, length_app, Hlen; cbn [length]; lia | lia].
Qed.

(** X17.  The list of cells is built one per anchor, in order, each at its
    anchor's coordinates, with [numRules = 5] random rules and a factor
    from [factors], which converts to a float that is not zero (so its
    jumps never divide by zero), the cursor on the first of 5002 points;
    each cell costs at least 5009 draws. *)
Theorem make_hexes_cells cos sin {Color} (Color_ : string -> Color) range_to
    coords t (hs : list (Hex Color)) t' :
  make_hexes cos sin Color_ range_to coords t = Ret hs t' ->
  Forall2 (fun j h =>
             x h = fst j /\ y h = snd j /\
             length (rules h) = 5%nat /\
             In (factor h) factors /\
             (exists g, to_float (factor h) = Val g /\
                        (g =? 0)%float = false) /\
             pointIndex h = 0 /\ len (points h) = 5002)
          coords hs /\
  len t' + 5009 * len coords <= len t.
Proof.
  revert t hs t'. induction coords as [|j js IH]; intros t hs t' H.
  - inversion H; subst. split; [constructor | cbn; lia].
  - cbn [make_hexes] in H.
    apply bind_Ret in H as (rs & t1 & Hrs & H).
    apply randBools_Ret in Hrs as [Lrs Drs].
    change (Z.to_nat numRules) with 5%nat in Lrs, Drs.
    apply bind_Ret in H as (fac & t2 & Hfac & H).
    pose proof (choice_draws _ _ _ _ Hfac) as Dfac.
    apply choice_Ret_In in Hfac.
    apply bind_Ret in H as (h & t3 & Hh & H).
    apply Hex_init_setup in Hh as (Hx & Hy & Hr & Hf & Hi & Hp & Dh).
    apply bind_Ret in H as (hs0 & t4 & Hhs & H).
    inversion H; subst hs t'. clear H.
    apply IH in Hhs as [Hall Dhs].
    split.
    + constructor; [|exact Hall].
      rewrite Hx, Hy, Hr, Hf.
      repeat (split; [first [reflexivity | assumption]|]).
      split; [apply factors_nonzero; exact Hfac|]. split; assumption.
    + unfold len in *. cbn [length]. lia.
Qed.

Lemma make_hexes_cells_witness :
  exists (hs : list (Hex Desktop.Color)) rest,
    make_hexes Desktop.cos Desktop.sin Desktop.Color_ Desktop.range_to
      [(Int 726, Int 215)]
      (2 ^ 53 - 1 :: 0 :: 2 ^ 52 + 1 :: 2 ^ 52 :: 2 ^ 53 - 1 :: 2 ::
       1 :: 0 :: 4 :: Desktop.zigzag 12500) = Ret hs rest /\
    Forall2 (fun j h =>
               x h = fst j /\ y h = snd j /\
               length (rules h) = 5%nat /\
               In (factor h) factors /\
               (exists g, to_float (factor h) = Val g /\
                          (g =? 0)%float = false) /\
               pointIndex h = 0 /\ len (points h) = 5002)
            [(Int 726, Int 215)] hs /\
    len rest + 5009 * len [(Int 726, Int 215)]
    <= len (2 ^ 53 - 1 :: 0 :: 2 ^ 52 + 1 :: 2 ^ 52 :: 2 ^ 53 - 1 :: 2 ::
            1 :: 0 :: 4 :: Desktop.zigzag 12500).
Proof.
  destruct (Hex_init_returns Desktop.cos Desktop.sin Desktop.Color_
              Desktop.range_to (Int 726) (Int 215)
              [true; false; true; false; true] (Int 2) 1 0 4
              (Desktop.zigzag 12500)) as (h & rest & E & _).
  - cbn. lia.
  - exists 2%float. split; reflexivity.
  - vm_compute. reflexivity.
  - vm_compute. discriminate.
  - remember (Desktop.zigzag 12500) as z eqn:Ez.
    assert (Hr : randBools (Z.to_nat numRules)
                   (2 ^ 53 - 1 :: 0 :: 2 ^ 52 + 1 :: 2 ^ 52 :: 2 ^ 53 - 1 ::
                    2 :: 1 :: 0 :: 4 :: z)
                 = Ret [true; false; true; false; true]
                       (2 :: 1 :: 0 :: 4 :: z))
      by (vm_compute; reflexivity).
    assert (Hc : choice factors (2 :: 1 :: 0 :: 4 :: z)
                 = Ret (Int 2) (1 :: 0 :: 4 :: z))
      by (vm_compute; reflexivity).
    assert (Hm : make_hexes Desktop.cos Desktop.sin Desktop.Color_
                   Desktop.range_to [(Int 726, Int 215)]
                   (2 ^ 53 - 1 :: 0 :: 2 ^ 52 + 1 :: 2 ^ 52 :: 2 ^ 53 - 1 ::
                    2 :: 1 :: 0 :: 4 :: z) = Ret [h] rest).
    { cbn [make_hexes fst snd]. unfold bind at 1. rewrite Hr.
      unfold bind at 1. rewrite Hc. unfold bind at 1. rewrite E.
      reflexivity. }
    exists [h], rest. split; [exact Hm|].
    exact (make_hexes_cells _ _ _ _ _ _ _ _ Hm).
Defined.
